(** * Quick SOS (src/App.jsx): a shallow embedding and its verification

    The component [App] keeps seven [useState] cells, two persistence
    effects and four event handlers.  The development below embeds

    - the JavaScript strings the handlers compute with, as sequences of
      UTF-16 code units, with the built-ins the source calls
      ([trim], [replace(/\D/g, "")], [includes], [join], [toFixed]);
    - [normalizePhone], [isBlockedNumber], [mapsLink];
    - the handlers [addContact], [removeContact], [getLocationOnce] and
      [sendSOS], each as the list of state-setter calls and capability
      calls it performs;
    - the render/commit step that applies the setter calls and fires the
      two [useEffect] persistence writes.  *)

From Stdlib Require Import ZArith NArith Lia List String Ascii.
From stdpp Require Import base decidable countable list gmap.

Local Open Scope N_scope.
#[local] Set Warnings "-clear-no-such-hyp".

(** ** JavaScript strings *)

Module JsString.

(** A string value is a finite sequence of 16-bit code units. *)
Abbreviation code_unit := N (only parsing).
Abbreviation jsstring := (list N) (only parsing).

(** A source literal made of ASCII characters only. *)
Fixpoint lit (s : string) : jsstring :=
  match s with
  | EmptyString => []
  | String a s' => N_of_ascii a :: lit s'
  end.

(** [!s] and the condition [s ? _ : _]: the empty string is the only
    falsy string. *)
Definition truthy (s : jsstring) : bool :=
  match s with
  | [] => false
  | _ :: _ => true
  end.

(** The class [\d] of a regular expression without the [u] and [i] flags:
    the code units of ["0"] to ["9"]. *)
Definition is_digit (c : code_unit) : bool := (48 <=? c) && (c <=? 57).

(** ECMAScript WhiteSpace and LineTerminator code points, the ones
    [String.prototype.trim] removes (all of them lie in the BMP). *)
Definition is_white_space (c : code_unit) : bool :=
  (c =? 9) || (c =? 11) || (c =? 12) || (c =? 32) || (c =? 160)
  || (c =? 5760) || ((8192 <=? c) && (c <=? 8202))
  || (c =? 8239) || (c =? 8287) || (c =? 12288) || (c =? 65279).

Definition is_line_terminator (c : code_unit) : bool :=
  (c =? 10) || (c =? 13) || (c =? 8232) || (c =? 8233).

Definition is_trimmed_char (c : code_unit) : bool :=
  is_white_space c || is_line_terminator c.

Fixpoint trim_start (s : jsstring) : jsstring :=
  match s with
  | [] => []
  | c :: s' => if is_trimmed_char c then trim_start s' else s
  end.

Definition trim_end (s : jsstring) : jsstring :=
  reverse (trim_start (reverse s)).

(** [s.trim()] *)
Definition trim (s : jsstring) : jsstring := trim_end (trim_start s).

(** [s.replace(/\D/g, "")]: every code unit outside [\d] is deleted. *)
Definition replace_non_digits (s : jsstring) : jsstring :=
  filter (λ c, is_digit c) s.

(** [arr.includes(x)] on an array of strings (SameValueZero on strings is
    equality of the code unit sequences). *)
Definition includes (arr : list jsstring) (x : jsstring) : bool :=
  existsb (fun y => bool_decide (y = x)) arr.

(** [arr.join(sep)] on an array of strings. *)
Fixpoint join (sep : jsstring) (arr : list jsstring) : jsstring :=
  match arr with
  | [] => []
  | [x] => x
  | x :: rest => x ++ sep ++ join sep rest
  end.

End JsString.
Import JsString.

(** ** PhoneNormalizer *)

(** [normalizePhone(input)]; [None] stands for a [null] or [undefined]
    argument, which [input || ""] replaces by the empty string. *)
Definition normalizePhone (input : option jsstring) : jsstring :=
  replace_non_digits (default [] input).

Definition blocked_numbers : list jsstring :=
  [lit "911"; lit "112"; lit "999"; lit "988"].

Definition isBlockedNumber (input : option jsstring) : bool :=
  let n := normalizePhone input in
  includes blocked_numbers n.

(** ** Component state *)

Record contact := Contact {
  id : jsstring;
  name : jsstring;
  phone : jsstring
}.

(** The seven [useState] cells of [App]. *)
Record state := State {
  status : jsstring;
  userName : jsstring;
  contacts : list contact;
  contactName : jsstring;
  contactPhone : jsstring;
  lastMessage : jsstring;
  lastLink : jsstring
}.

Definition STORAGE_NAME : jsstring := lit "sos_user_name".
Definition STORAGE_CONTACTS : jsstring := lit "sos_contacts".

(** Options object handed to [navigator.geolocation.getCurrentPosition]. *)
Record position_options := PositionOptions {
  enableHighAccuracy : bool;
  timeout : N;
  maximumAge : N
}.

(** What a handler does, in program order: calls of the state setters and
    calls into the browser capabilities. *)
Inductive call :=
| SetStatus (v : jsstring)
| SetUserName (v : jsstring)
| SetContacts (v : list contact)
| SetContactName (v : jsstring)
| SetContactPhone (v : jsstring)
| SetLastMessage (v : jsstring)
| SetLastLink (v : jsstring)
| GetCurrentPosition (options : position_options)
| SetLocationHref (url : jsstring).

(** How the run of a handler stands: it returned, it threw, or (async
    handlers) it is suspended at an [await] whose promise is pending. *)
Inductive completion := Returned | Threw | Awaiting.

Record outcome := Outcome {
  calls : list call;
  how : completion
}.

Definition apply_call (st : state) (c : call) : state :=
  match c with
  | SetStatus v =>
      State v (userName st) (contacts st) (contactName st) (contactPhone st)
            (lastMessage st) (lastLink st)
  | SetUserName v =>
      State (status st) v (contacts st) (contactName st) (contactPhone st)
            (lastMessage st) (lastLink st)
  | SetContacts v =>
      State (status st) (userName st) v (contactName st) (contactPhone st)
            (lastMessage st) (lastLink st)
  | SetContactName v =>
      State (status st) (userName st) (contacts st) v (contactPhone st)
            (lastMessage st) (lastLink st)
  | SetContactPhone v =>
      State (status st) (userName st) (contacts st) (contactName st) v
            (lastMessage st) (lastLink st)
  | SetLastMessage v =>
      State (status st) (userName st) (contacts st) (contactName st)
            (contactPhone st) v (lastLink st)
  | SetLastLink v =>
      State (status st) (userName st) (contacts st) (contactName st)
            (contactPhone st) (lastMessage st) v
  | GetCurrentPosition _ | SetLocationHref _ => st
  end.

(** The state of the next render: the setter calls applied in order. *)
Definition commit (st : state) (cs : list call) : state :=
  fold_left apply_call cs st.

(** *** Persistence effects *)

(** A write through [localStorage.setItem]: [saveString(key, value)], or
    [saveJson(key, value)] whose text is [JSON.stringify(value)]. *)
Inductive storage_write :=
| SaveString (key value : jsstring)
| SaveJson (key : jsstring) (value : list contact).

Definition is_SetContacts (c : call) : bool :=
  match c with SetContacts _ => true | _ => false end.

(** The two [useEffect] hooks after the render that follows a handler
    (their run after the first render is not part of any handler).
    The dependency [userName] is a string, compared by value; the
    dependency [contacts] is an array, compared by identity, and every
    [setContacts] of the component passes a freshly built array. *)
Definition persistence_writes (st : state) (cs : list call)
  : list storage_write :=
  let st' := commit st cs in
  (if bool_decide (userName st' = userName st) then []
   else [SaveString STORAGE_NAME (userName st')])
  ++ (if existsb is_SetContacts cs
      then [SaveJson STORAGE_CONTACTS (contacts st')] else []).

(** The first render: [loadString(STORAGE_NAME, "")] and
    [loadJson(STORAGE_CONTACTS, [])]; [None] is an absent key (for the
    contacts also an empty or unparsable text). *)
Definition mount (stored_name : option jsstring)
    (stored_contacts : option (list contact)) : state :=
  State [] (default [] stored_name) (default [] stored_contacts) [] [] [] [].

(** ** ContactStore: the handlers [addContact] and [removeContact] *)

Definition recipientsCsv (st : state) : jsstring :=
  join (lit ",") (phone <$> contacts st).

(** One turn of the loop [for (const c of next)] on the pair
    ([seen], [dedup]). *)
Definition dedup_step (acc : gset jsstring * list contact) (c : contact)
  : gset jsstring * list contact :=
  let '(seen, dedup) := acc in
  if bool_decide (phone c ∈ seen) then (seen, dedup)
  else ({[phone c]} ∪ seen, dedup ++ [c]).

Definition dedup_by_phone (next : list contact) : list contact :=
  snd (fold_left dedup_step next (∅, [])).

Definition status_empty_phone : jsstring := lit "Enter a phone number.".
Definition status_blocked : jsstring :=
  lit "Emergency numbers like 911 cannot be added.".
Definition status_too_short : jsstring := lit "That number looks too short.".
Definition status_saved : jsstring := lit "Contact saved.".
Definition status_removed : jsstring := lit "Contact removed.".

(** [addContact()].  [randomUUID] is what [crypto.randomUUID()] gives in
    this run; [None] when the call throws (the method is missing outside
    secure contexts). *)
Definition addContact (randomUUID : option jsstring) (st : state) : outcome :=
  let phone := trim (contactPhone st) in
  let digits := normalizePhone (Some phone) in
  if negb (truthy phone) then
    Outcome [SetStatus status_empty_phone] Returned
  else if isBlockedNumber (Some phone) then
    Outcome [SetStatus status_blocked] Returned
  else if (N.of_nat (length digits) <? 7) then
    Outcome [SetStatus status_too_short] Returned
  else
    match randomUUID with
    | None => Outcome [] Threw
    | Some uuid =>
        let next := contacts st ++ [Contact uuid (trim (contactName st)) phone] in
        let dedup := dedup_by_phone next in
        Outcome [SetContacts dedup; SetContactName []; SetContactPhone [];
                 SetStatus status_saved] Returned
    end.

(** [removeContact(id)] *)
Definition removeContact (rid : jsstring) (st : state) : outcome :=
  Outcome
    [SetContacts (filter (λ c, id c ≠ rid) (contacts st));
     SetStatus status_removed]
    Returned.

(** *** User events that reach the contact store *)

Inductive event :=
| ChangeUserName (v : jsstring)
| ChangeContactName (v : jsstring)
| ChangeContactPhone (v : jsstring)
| ClickAddContact (randomUUID : option jsstring)
| ClickRemove (rid : jsstring).

Definition handle (ev : event) (st : state) : outcome :=
  match ev with
  | ChangeUserName v => Outcome [SetUserName v] Returned
  | ChangeContactName v => Outcome [SetContactName v] Returned
  | ChangeContactPhone v => Outcome [SetContactPhone v] Returned
  | ClickAddContact u => addContact u st
  | ClickRemove rid => removeContact rid st
  end.

Definition step (st : state) (ev : event) : state :=
  commit st (calls (handle ev st)).

Definition run (st : state) (evs : list event) : state :=
  fold_left step evs st.

(** The operations of the store as a caller sees them: fill the two
    inputs and press "Add Contact"; press "Remove". *)
Definition add (nm ph : jsstring) (randomUUID : option jsstring)
    (st : state) : state :=
  run st [ChangeContactName nm; ChangeContactPhone ph;
          ClickAddContact randomUUID].

Definition remove (rid : jsstring) (st : state) : state :=
  step st (ClickRemove rid).

(** Stores reachable from the empty one. *)
Definition empty_store : state := mount None None.

Definition reachable (st : state) : Prop :=
  ∃ evs, st = run empty_store evs.

(** ** Numbers and [Number.prototype.toFixed] *)

(** A finite double, held as the dyadic rational [mantissa * 2^exponent]
    it denotes (both zeros are [mantissa = 0]; [toFixed] does not tell them
    apart).  The attributes [latitude] and [longitude] of a position are
    WebIDL [double]s, which are finite. *)
Record double := Double {
  mantissa : Z;
  exponent : Z
}.

(** [|x|] as a fraction [numer / denom] of naturals, [denom] a power of 2. *)
Definition abs_numer (x : double) : Z :=
  (Z.abs (mantissa x) * 2 ^ Z.max (exponent x) 0)%Z.
Definition abs_denom (x : double) : Z :=
  (2 ^ Z.max (- exponent x) 0)%Z.

Definition is_negative (x : double) : bool := (mantissa x <? 0)%Z.

(** [10^21 <= |x|]: the magnitudes [toFixed] hands over to [ToString]. *)
Definition is_huge (x : double) : bool :=
  (10 ^ 21 * abs_denom x <=? abs_numer x)%Z.

(** Step 10.a of [toFixed]: the integer [n] for which [n / 10^f - |x|] is
    closest to zero, the larger one of two. *)
Definition nearest_scaled (x : double) (f : nat) : N :=
  Z.to_N ((2 * abs_numer x * 10 ^ Z.of_nat f + abs_denom x)
          / (2 * abs_denom x))%Z.

Fixpoint decimal_digits_fuel (fuel : nat) (n : N) : jsstring :=
  match fuel with
  | O => []
  | S fuel' =>
      if n <? 10 then [48 + n]
      else decimal_digits_fuel fuel' (n / 10) ++ [48 + n mod 10]
  end.

(** The decimal representation of [n] (["0"] for zero); the number of bits
    of [n] bounds the number of its digits. *)
Definition decimal_digits (n : N) : jsstring :=
  decimal_digits_fuel (S (N.to_nat (N.size n))) n.

(** Steps 10.b to 10.d: pad to [f + 1] digits and put the point in. *)
Definition place_point (m : jsstring) (f : nat) : jsstring :=
  match f with
  | O => m
  | S _ =>
      let k := length m in
      let m := if (k <=? f)%nat then repeat 48 (f + 1 - k) ++ m else m in
      let k := length m in
      take (k - f) m ++ lit "." ++ drop (k - f) m
  end.

(** The read-only capabilities of the page that the handlers consult. *)
Record position_error := PositionError { code : N }.

Record coordinates := Coordinates {
  latitude : double;
  longitude : double
}.

Record position := Position { coords : coordinates }.

Inductive callback :=
| Success (pos : position)
| Failure (err : position_error).

(** A position sensor: the callback (if any) it invokes at each
    millisecond after a request made with the given options. *)
Definition sensor := position_options → nat → option callback.

Record navigator := Navigator { geolocation : option sensor }.

Inductive rejection :=
| NotSupported
| SensorError (err : position_error).

Inductive promise_state :=
| Pending
| Fulfilled (pos : position)
| Rejected (reason : rejection).

(** The first callback invoked up to time [t]; a promise keeps its first
    settlement. *)
Fixpoint first_callback (f : nat → option callback) (t : nat)
  : option callback :=
  match t with
  | O => f O
  | S t' =>
      match first_callback f t' with
      | Some c => Some c
      | None => f t
      end
  end.

Definition location_options : position_options :=
  PositionOptions true 10000 0.

(** [getLocationOnce()]: the capability calls made by the executor of
    the promise, and the promise [t] milliseconds later. *)
Definition getLocationOnce_calls (nav : navigator) : list call :=
  match geolocation nav with
  | None => []
  | Some _ => [GetCurrentPosition location_options]
  end.

Definition getLocationOnce (nav : navigator) (t : nat) : promise_state :=
  match geolocation nav with
  | None => Rejected NotSupported
  | Some device =>
      match first_callback (device location_options) t with
      | None => Pending
      | Some (Success pos) => Fulfilled pos
      | Some (Failure err) => Rejected (SensorError err)
      end
  end.

Definition nl : jsstring := [10].

Definition line_detained : jsstring :=
  lit "I" ++ [8217] ++
  lit "m being questioned or detained and may not be able to respond right now.".
Definition line_check : jsstring :=
  lit "Please check on me to make sure I" ++ [8217] ++ lit "m okay.".
Definition line_location_below : jsstring :=
  lit "My last known location is below:".
Definition line_location_unavailable : jsstring :=
  lit "My location is unavailable right now.".

Definition status_no_contacts : jsstring :=
  lit "Add at least one contact first.".
Definition status_locating : jsstring := lit "Getting location" ++ [8230].
Definition status_opening : jsstring := lit "Opening SMS app (tap Send).".

(** [mapsLink(lat, lon)], on the two strings it is called with. *)
Definition mapsLink (lat lon : jsstring) : jsstring :=
  lit "https://maps.google.com/?q=" ++ lat ++ lit "," ++ lon.

(** The template literal [message] of [sendSOS]. *)
Definition message_text (userName link time : jsstring) : jsstring :=
  let nameLine :=
    if truthy userName then lit "My name is " ++ userName ++ lit "."
    else lit "This is an SOS message." in
  (nameLine ++ nl) ++
  (line_detained ++ nl) ++
  (line_check ++ nl) ++
  (if truthy link then line_location_below ++ nl ++ link ++ nl
   else line_location_unavailable ++ nl) ++
  (lit "Time: " ++ time).

Section Builtins.

(** Two built-ins enter as parameters: [Number::toString] (reached by
    [toFixed] from [10^21] on, applied to the magnitude), and
    [encodeURIComponent], where [None] is the [URIError] it throws on a
    lone surrogate. *)
Variable numberToString : double → jsstring.
Variable encodeURIComponent : jsstring → option jsstring.

(** [x.toFixed(f)] for [0 <= f <= 100], on a finite [x]. *)
Definition toFixed (x : double) (f : nat) : jsstring :=
  let s := if is_negative x then lit "-" else [] in
  let m :=
    if is_huge x
    then numberToString (Double (Z.abs (mantissa x)) (exponent x))
    else place_point (decimal_digits (nearest_scaled x f)) f in
  s ++ m.

(** The [try]/[catch] of [sendSOS] around the settled promise. *)
Definition link_of (settled : promise_state) : jsstring :=
  match settled with
  | Fulfilled pos =>
      let lat := toFixed (latitude (coords pos)) 6 in
      let lon := toFixed (longitude (coords pos)) 6 in
      mapsLink lat lon
  | Rejected _ | Pending => []
  end.

(** [sendSOS()], observed [t] milliseconds after the click; [time] is
    what [new Date().toLocaleString()] gives at the click.  The values
    [contacts], [userName] and [recipientsCsv] are those of the render the
    click happened in. *)
Definition sendSOS (nav : navigator) (time : jsstring) (t : nat)
    (st : state) : outcome :=
  if negb (0 <? N.of_nat (length (contacts st))) then
    Outcome [SetStatus status_no_contacts] Returned
  else
    let before := SetStatus status_locating :: getLocationOnce_calls nav in
    match getLocationOnce nav t with
    | Pending => Outcome before Awaiting
    | settled =>
        let link := link_of settled in
        let message := message_text (userName st) link time in
        let composed := before ++ [SetLastLink link; SetLastMessage message] in
        match encodeURIComponent (recipientsCsv st) with
        | None => Outcome composed Threw
        | Some to =>
            match encodeURIComponent message with
            | None => Outcome composed Threw
            | Some body =>
                let smsUrl := (lit "sms:" ++ to) ++ (lit "?&body=" ++ body) in
                Outcome (composed ++ [SetStatus status_opening;
                                      SetLocationHref smsUrl]) Returned
            end
        end
    end.

End Builtins.

(** ** The specification's reading, for comparison with the code *)

Inductive ValidationError := EmptyPhone | BlockedNumber | TooShort.

(** Steps 1 to 3 of [add] as the specification words them, on the phone
    text as entered. *)
Definition spec_validate (ph : jsstring) : option ValidationError :=
  if bool_decide (trim ph = []) then Some EmptyPhone
  else if isBlockedNumber (Some ph) then Some BlockedNumber
  else if (length (normalizePhone (Some ph)) <? 7)%nat then Some TooShort
  else None.

Definition status_of_error (e : ValidationError) : jsstring :=
  match e with
  | EmptyPhone => status_empty_phone
  | BlockedNumber => status_blocked
  | TooShort => status_too_short
  end.

(** The message as the specification lists its lines, the last one being
    ["Time: {formatted time}."]. *)
Definition spec_message_lines (userName link time : jsstring)
  : list jsstring :=
  [if truthy userName then lit "My name is " ++ userName ++ lit "."
   else lit "This is an SOS message."]
  ++ [line_detained; line_check]
  ++ (if truthy link then [line_location_below; link]
      else [line_location_unavailable])
  ++ [lit "Time: " ++ time ++ lit "."].

Definition spec_message_text (userName link time : jsstring) : jsstring :=
  join nl (spec_message_lines userName link time).

(** The value of a digit string read in base ten. *)
Definition decimal_value (s : jsstring) : N :=
  fold_left (fun acc c => 10 * acc + (c - 48)) s 0.

(** [s] renders [x] with six fractional digits: an optional minus sign,
    at least one integer digit, the point and six digits, the digits being
    those of the integer [n] for which [n / 10^6] is nearest to [|x|]
    (within half a unit of the sixth place). *)
Definition six_fraction_digits (x : double) (s : jsstring) : Prop :=
  ∃ ip fp : jsstring,
    s = (if is_negative x then lit "-" else []) ++ ip ++ lit "." ++ fp
    ∧ ip ≠ [] ∧ length fp = 6%nat
    ∧ Forall (λ c, is_digit c = true) (ip ++ fp)
    ∧ (Z.abs (2 * (Z.of_N (decimal_value (ip ++ fp)) * abs_denom x
                   - abs_numer x * 10 ^ 6))
       ≤ abs_denom x)%Z.

(** A phone text that passes the three checks of [addContact]. *)
Definition acceptable (ph : jsstring) : Prop :=
  trim ph ≠ [] ∧ isBlockedNumber (Some ph) = false
  ∧ (7 ≤ length (normalizePhone (Some ph)))%nat.

(** A sensor that never invokes a callback. *)
Definition silent_sensor : sensor := λ _ _, None.

(** The loop of [dedup_by_phone] in recursive form: the entries of [l]
    kept when the phones in [seen] have been met already. *)
Fixpoint keep_fresh (seen : gset jsstring) (l : list contact)
  : list contact :=
  match l with
  | [] => []
  | c :: l' =>
      if bool_decide (phone c ∈ seen) then keep_fresh seen l'
      else c :: keep_fresh ({[phone c]} ∪ seen) l'
  end.

Definition has_phone (p : jsstring) (c : contact) : Prop := phone c = p.

#[global] Instance has_phone_dec p c : Decision (has_phone p c).
Proof. unfold has_phone. apply _. Defined.

(** The persistence writes fired along a sequence of events. *)
Fixpoint run_writes (st : state) (evs : list event) : list storage_write :=
  match evs with
  | [] => []
  | ev :: evs' =>
      persistence_writes st (calls (handle ev st))
      ++ run_writes (step st ev) evs'
  end.

Definition add_events (nm ph : jsstring) (randomUUID : option jsstring)
  : list event :=
  [ChangeContactName nm; ChangeContactPhone ph; ClickAddContact randomUUID].

(** [formatted n s]: the text [s] is the digit string [n] with characters
    other than digits (punctuation, spaces) put anywhere in it. *)
Inductive formatted : jsstring → jsstring → Prop :=
| formatted_nil : formatted [] []
| formatted_digit d n s :
    is_digit d = true → formatted n s → formatted (d :: n) (d :: s)
| formatted_other c n s :
    is_digit c = false → formatted n s → formatted n (c :: s).

(** What a rejected [add nm ph] amounts to: the handler only sets the
    status text of the error and returns; the contact sequence is the one
    before; nothing is written to storage. *)
Definition rejected_with (e : ValidationError) (nm ph : jsstring)
    (randomUUID : option jsstring) (st : state) : Prop :=
  handle (ClickAddContact randomUUID)
         (run st [ChangeContactName nm; ChangeContactPhone ph])
    = Outcome [SetStatus (status_of_error e)] Returned
  ∧ status (add nm ph randomUUID st) = status_of_error e
  ∧ contacts (add nm ph randomUUID st) = contacts st
  ∧ run_writes st (add_events nm ph randomUUID) = [].

(** The property the specification gives as the store invariant. *)
Definition digits_unique (st : state) : Prop :=
  NoDup ((λ c, normalizePhone (Some (phone c))) <$> contacts st).

(** The property the store does keep. *)
Definition phones_unique (st : state) : Prop :=
  NoDup (phone <$> contacts st).

(** ** Storage: [loadJson], [saveJson], [loadString], [saveString] *)

(** [localStorage]: a finite map from key strings to value strings
    ([getItem] of an absent key gives [null]). *)
Abbreviation local_storage := (gmap (list N) (list N)) (only parsing).

(** [loadString(key, fallback)]: [localStorage.getItem(key) ?? fallback]. *)
Definition loadString (ls : local_storage) (key fallback : jsstring)
  : jsstring :=
  default fallback (ls !! key).

(** [saveString(key, value)] *)
Definition saveString (key value : jsstring) (ls : local_storage)
  : local_storage :=
  <[key := value]> ls.

(** [loadJson(key, fallback)].  [JSON_parse] is the built-in, [None] when
    it throws; the [catch] turns that into the fallback, and the test
    [raw ? _ : _] does so for an absent key and for the empty text. *)
Definition loadJson {A : Type} (JSON_parse : jsstring → option A)
    (ls : local_storage) (key : jsstring) (fallback : A) : A :=
  match ls !! key with
  | Some raw =>
      if truthy raw then
        match JSON_parse raw with
        | Some v => v
        | None => fallback
        end
      else fallback
  | None => fallback
  end.

(** [saveJson(key, value)] *)
Definition saveJson {A : Type} (JSON_stringify : A → jsstring)
    (key : jsstring) (value : A) (ls : local_storage) : local_storage :=
  <[key := JSON_stringify value]> ls.

(** A recorded write carried out on the storage. *)
Definition apply_write (JSON_stringify : list contact → jsstring)
    (ls : local_storage) (w : storage_write) : local_storage :=
  match w with
  | SaveString key value => saveString key value ls
  | SaveJson key value => saveJson JSON_stringify key value ls
  end.

Definition apply_writes (JSON_stringify : list contact → jsstring)
    (ls : local_storage) (ws : list storage_write) : local_storage :=
  fold_left (apply_write JSON_stringify) ws ls.

(** The two effects after the first render, in the order of their
    declaration. *)
Definition mount_writes (st : state) : list storage_write :=
  [SaveString STORAGE_NAME (userName st);
   SaveJson STORAGE_CONTACTS (contacts st)].


(** The storage holds the user name and the contact list of the state. *)
Definition in_sync (JSON_stringify : list contact → jsstring)
    (ls : local_storage) (st : state) : Prop :=
  ls !! STORAGE_NAME = Some (userName st)
  ∧ ls !! STORAGE_CONTACTS = Some (JSON_stringify (contacts st)).

(** ** [copyMessage] *)

(** What [navigator.clipboard.writeText] does with its promise. *)
Inductive write_result := WriteResolved | WriteRejected | WritePending.

(** A run of [copyMessage]: the texts handed to the clipboard and the
    setter calls. *)
Record copy_run := CopyRun {
  clipboard_writes : list jsstring;
  copy_outcome : outcome
}.

Definition status_press_sos : jsstring := lit "Press SOS first.".
Definition status_copied : jsstring := lit "Message copied.".

(** [copyMessage()].  [clipboard] is [None] when [navigator.clipboard]
    is missing (reading [writeText] of it throws). *)
Definition copyMessage (clipboard : option write_result) (st : state)
  : copy_run :=
  if negb (truthy (lastMessage st)) then
    CopyRun [] (Outcome [SetStatus status_press_sos] Returned)
  else
    match clipboard with
    | None => CopyRun [] (Outcome [] Threw)
    | Some WritePending => CopyRun [lastMessage st] (Outcome [] Awaiting)
    | Some WriteRejected => CopyRun [lastMessage st] (Outcome [] Threw)
    | Some WriteResolved =>
        CopyRun [lastMessage st] (Outcome [SetStatus status_copied] Returned)
    end.

(** ** Further notions used in the statements *)

(** The settlement a callback gives the promise of [getLocationOnce]. *)
Definition settle (cb : callback) : promise_state :=
  match cb with
  | Success pos => Fulfilled pos
  | Failure err => Rejected (SensorError err)
  end.

Definition is_GetCurrentPosition (c : call) : bool :=
  match c with GetCurrentPosition _ => true | _ => false end.

Definition is_SetLocationHref (c : call) : bool :=
  match c with SetLocationHref _ => true | _ => false end.

(** What [addContact] leaves in the store for every contact it adds. *)
Definition well_formed_contact (c : contact) : Prop :=
  trim (phone c) = phone c ∧ trim (name c) = name c
  ∧ (7 ≤ length (normalizePhone (Some (phone c))))%nat
  ∧ isBlockedNumber (Some (phone c)) = false.

(** No comma (code unit 44) in the text. *)
Definition comma_free (s : jsstring) : Prop := 44 ∉ s.

(** * Theorems *)

(** ** Strings *)

Section StringFacts.

Lemma trimmed_char_not_digit c : is_trimmed_char c = true → is_digit c = false.
Proof.
  unfold is_trimmed_char, is_white_space, is_line_terminator, is_digit.
  intros H. apply andb_false_iff.
  destruct (48 <=? c) eqn:E1; [right | by left].
  destruct (c <=? 57) eqn:E2; [| done].
  apply N.leb_le in E1, E2.
  repeat (apply orb_prop in H; destruct H as [H | H]);
    try (apply N.eqb_eq in H; lia);
    apply andb_prop in H as [H1 H2]; apply N.leb_le in H1; lia.
Qed.

Lemma digits_trim_start s :
  replace_non_digits (trim_start s) = replace_non_digits s.
Proof.
  unfold replace_non_digits.
  induction s as [| c s IH]; [done |].
  cbn [trim_start]. destruct (is_trimmed_char c) eqn:E; [| done].
  rewrite filter_cons_False; [done |].
  intros Hd. cbn in Hd. by rewrite (trimmed_char_not_digit c E) in Hd.
Qed.

Lemma digits_trim s : replace_non_digits (trim s) = replace_non_digits s.
Proof.
  unfold trim, trim_end.
  transitivity (replace_non_digits (trim_start s)); [| apply digits_trim_start].
  generalize (trim_start s) as r. intros r. unfold replace_non_digits.
  rewrite filter_reverse. fold (replace_non_digits (trim_start (reverse r))).
  rewrite digits_trim_start. unfold replace_non_digits.
  by rewrite filter_reverse, reverse_involutive.
Qed.

Lemma normalizePhone_trim s :
  normalizePhone (Some (trim s)) = normalizePhone (Some s).
Proof. apply digits_trim. Qed.

Lemma isBlockedNumber_trim s :
  isBlockedNumber (Some (trim s)) = isBlockedNumber (Some s).
Proof. unfold isBlockedNumber. by rewrite normalizePhone_trim. Qed.

Lemma truthy_false s : truthy s = false ↔ s = [].
Proof. destruct s; simpl; split; congruence. Qed.

Lemma includes_spec arr x : includes arr x = true ↔ x ∈ arr.
Proof.
  unfold includes. rewrite existsb_exists. split.
  - intros (y & Hy & E). apply bool_decide_eq_true in E. subst.
    by apply list_elem_of_In.
  - intros H. exists x. split; [by apply list_elem_of_In |].
    by apply bool_decide_eq_true.
Qed.

End StringFacts.

Example normalize_example :
  normalizePhone (Some (lit "(555) 123-4567")) = lit "5551234567".
Proof. reflexivity. Qed.

Example normalize_null : normalizePhone None = [].
Proof. reflexivity. Qed.

(** ** The deduplication loop *)

Section Dedup.

Implicit Types (seen : gset jsstring) (l : list contact) (c : contact).

Lemma dedup_loop_snd l seen acc :
  snd (fold_left dedup_step l (seen, acc)) = acc ++ keep_fresh seen l.
Proof.
  revert seen acc. induction l as [| c l IH]; intros seen acc; simpl.
  - by rewrite app_nil_r.
  - case_bool_decide; rewrite IH; [done |]. by rewrite <- app_assoc.
Qed.

Lemma dedup_by_phone_eq l : dedup_by_phone l = keep_fresh ∅ l.
Proof. unfold dedup_by_phone. by rewrite dedup_loop_snd. Qed.

Lemma keep_fresh_elem seen l c :
  c ∈ keep_fresh seen l → (phone c ∉ seen) ∧ c ∈ l.
Proof.
  revert seen. induction l as [| a l IH]; intros seen; simpl.
  - by intros ?%elem_of_nil.
  - case_bool_decide as Ha.
    + intros Hc. destruct (IH _ Hc). split; [done | by right].
    + intros [-> | Hc]%elem_of_cons.
      * split; [done | by left].
      * destruct (IH _ Hc). split; [set_solver | by right].
Qed.

Lemma keep_fresh_NoDup seen l : NoDup (phone <$> keep_fresh seen l).
Proof.
  revert seen. induction l as [| a l IH]; intros seen; simpl.
  - constructor.
  - case_bool_decide as Ha; [apply IH |].
    rewrite fmap_cons. apply NoDup_cons. split; [| apply IH].
    intros (c & E & Hc)%list_elem_of_fmap.
    apply keep_fresh_elem in Hc as [Hc _]. rewrite <- E in Hc. set_solver.
Qed.

Lemma keep_fresh_complete seen l c :
  c ∈ l → phone c ∈ seen ∨ phone c ∈ (phone <$> keep_fresh seen l).
Proof.
  revert seen. induction l as [| a l IH]; intros seen; simpl.
  - by intros ?%elem_of_nil.
  - intros [-> | Hc]%elem_of_cons.
    + case_bool_decide; [by left | right]. rewrite fmap_cons. by left.
    + case_bool_decide.
      * by apply IH.
      * destruct (IH ({[phone a]} ∪ seen) Hc) as [Hs | Hk].
        -- apply elem_of_union in Hs as [->%elem_of_singleton | ?];
             [right; rewrite fmap_cons; by left | by left].
        -- right. rewrite fmap_cons. by right.
Qed.

Lemma keep_fresh_sublist seen l : keep_fresh seen l `sublist_of` l.
Proof.
  revert seen. induction l as [| a l IH]; intros seen; simpl; [done |].
  case_bool_decide; [by apply sublist_cons | by apply sublist_skip].
Qed.

(** An entry that survives is the first one of the sequence with its
    phone. *)
Lemma list_find_cons_True (P : contact → Prop) `{∀ c, Decision (P c)} a l :
  P a → list_find P (a :: l) = Some (0%nat, a).
Proof. intros Ha. cbn. by rewrite decide_True. Qed.

Lemma list_find_cons_False (P : contact → Prop) `{∀ c, Decision (P c)} a l :
  ¬ P a → list_find P (a :: l) = prod_map S Datatypes.id <$> list_find P l.
Proof. intros Ha. cbn. by rewrite decide_False. Qed.

Lemma keep_fresh_first seen l c :
  c ∈ keep_fresh seen l →
  ∃ i, list_find (has_phone (phone c)) l = Some (i, c).
Proof.
  revert seen. induction l as [| a l IH]; intros seen; cbn [keep_fresh].
  - by intros ?%elem_of_nil.
  - case_bool_decide as Ha.
    + intros Hc. destruct (keep_fresh_elem _ _ _ Hc) as [Hn _].
      destruct (IH _ Hc) as [i Hi]. exists (S i).
      rewrite list_find_cons_False; [by rewrite Hi |].
      unfold has_phone. congruence.
    + intros [-> | Hc]%elem_of_cons.
      * exists 0%nat. by apply list_find_cons_True.
      * destruct (keep_fresh_elem _ _ _ Hc) as [Hn _].
        destruct (IH _ Hc) as [i Hi]. exists (S i).
        rewrite list_find_cons_False; [by rewrite Hi |].
        unfold has_phone. intros E. rewrite E in Hn. set_solver.
Qed.

(** A sequence whose phones are pairwise distinct and new is kept whole. *)
Lemma keep_fresh_id seen l :
  NoDup (phone <$> l) → (∀ c, c ∈ l → phone c ∉ seen) →
  keep_fresh seen l = l.
Proof.
  revert seen. induction l as [| a l IH]; intros seen Hnd Hs; simpl; [done |].
  rewrite fmap_cons in Hnd. apply NoDup_cons in Hnd as [Ha Hnd].
  rewrite bool_decide_eq_false_2 by (apply Hs; by left).
  f_equal. apply IH; [done |].
  intros c Hc [E%elem_of_singleton | ?]%elem_of_union.
  - apply Ha. rewrite <- E. by apply list_elem_of_fmap_2.
  - apply (Hs c); [by right | done].
Qed.

Lemma keep_fresh_app seen l k :
  keep_fresh seen (l ++ k)
  = keep_fresh seen l
    ++ keep_fresh (seen ∪ list_to_set (phone <$> keep_fresh seen l)) k.
Proof.
  revert seen. induction l as [| a l IH]; intros seen; simpl.
  - f_equal. set_solver.
  - case_bool_decide; [apply IH |].
    simpl. f_equal. rewrite IH. do 2 f_equal. set_solver.
Qed.

Lemma filter_none (P : contact → Prop) `{∀ c, Decision (P c)} l :
  (∀ c, c ∈ l → ¬ P c) → filter P l = [].
Proof.
  induction l as [| a l IH]; intros Hl; [done |].
  rewrite filter_cons_False by (apply Hl; by left).
  apply IH. intros c Hc. apply Hl. by right.
Qed.

Lemma NoDup_phones_filter (P : contact → Prop) `{∀ c, Decision (P c)} l :
  NoDup (phone <$> l) → NoDup (phone <$> filter P l).
Proof.
  intros Hnd. apply (sublist_NoDup _ _ Hnd).
  apply fmap_sublist, sublist_filter.
Qed.

End Dedup.

(** ** The contact store *)

Section ContactStore.

Implicit Types (st : state) (ph nm : jsstring) (u : option jsstring).

Lemma spec_validate_None ph : spec_validate ph = None ↔ acceptable ph.
Proof.
  unfold spec_validate, acceptable. case_bool_decide as Ht.
  - split; [done | by intros [? _]].
  - destruct (isBlockedNumber (Some ph)); [split; [done | by intros (_ & ? & _)] |].
    destruct (Nat.ltb_spec (length (normalizePhone (Some ph))) 7).
    + split; [done | intros (_ & _ & ?); lia].
    + split; [by intros _ | done].
Qed.

(** The three guards of [addContact] are the three checks of the
    specification, in its order. *)
Lemma addContact_cases u st :
  addContact u st =
  match spec_validate (contactPhone st) with
  | Some e => Outcome [SetStatus (status_of_error e)] Returned
  | None =>
      match u with
      | None => Outcome [] Threw
      | Some uuid =>
          Outcome
            [SetContacts
               (dedup_by_phone
                  (contacts st
                   ++ [Contact uuid (trim (contactName st))
                               (trim (contactPhone st))]));
             SetContactName []; SetContactPhone []; SetStatus status_saved]
            Returned
      end
  end.
Proof.
  unfold addContact, spec_validate.
  rewrite isBlockedNumber_trim, normalizePhone_trim.
  case_bool_decide as Ht.
  - by rewrite Ht.
  - destruct (trim (contactPhone st)) as [| c0 r] eqn:E; [done |].
    cbn [truthy negb].
    destruct (isBlockedNumber (Some (contactPhone st))); [done |].
    set (len := length (normalizePhone (Some (contactPhone st)))).
    destruct (Nat.ltb_spec len 7) as [Hn | Hn].
    + by rewrite (proj2 (N.ltb_lt _ _)) by lia.
    + by rewrite (proj2 (N.ltb_ge _ _)) by lia.
Qed.

Lemma add_step nm ph u st :
  add nm ph u st
  = step (State (status st) (userName st) (contacts st) nm ph
                (lastMessage st) (lastLink st))
         (ClickAddContact u).
Proof. reflexivity. Qed.

Lemma add_rejected nm ph u st e :
  spec_validate ph = Some e →
  add nm ph u st
  = State (status_of_error e) (userName st) (contacts st) nm ph
          (lastMessage st) (lastLink st).
Proof.
  intros He. rewrite add_step. unfold step, handle.
  rewrite addContact_cases. cbn [contactPhone]. by rewrite He.
Qed.

Lemma add_accepted nm ph uuid st :
  acceptable ph →
  add nm ph (Some uuid) st
  = State status_saved (userName st)
          (keep_fresh ∅ (contacts st ++ [Contact uuid (trim nm) (trim ph)]))
          [] [] (lastMessage st) (lastLink st).
Proof.
  intros He%spec_validate_None. rewrite add_step. unfold step, handle.
  rewrite addContact_cases. cbn [contactPhone]. rewrite He.
  by rewrite dedup_by_phone_eq.
Qed.

Lemma step_phones_unique st ev : phones_unique st → phones_unique (step st ev).
Proof.
  unfold phones_unique, step. intros Hnd.
  destruct ev as [v | v | v | u | rid]; cbn [handle]; try done.
  - rewrite addContact_cases.
    destruct (spec_validate (contactPhone st)); [done |].
    destruct u as [uuid |]; [| done].
    cbn. rewrite dedup_by_phone_eq. apply keep_fresh_NoDup.
  - cbn. by apply NoDup_phones_filter.
Qed.

Lemma run_snoc st evs ev : run st (evs ++ [ev]) = step (run st evs) ev.
Proof. unfold run. by rewrite fold_left_app. Qed.

Lemma run_phones_unique st evs :
  phones_unique st → phones_unique (run st evs).
Proof.
  intros Hst. induction evs as [| ev evs IH] using rev_ind; [done |].
  rewrite run_snoc. by apply step_phones_unique.
Qed.

(** [add] and [remove] stay within the reachable stores. *)
Lemma reachable_empty : reachable empty_store.
Proof. by exists []. Qed.

Lemma reachable_add nm ph u st : reachable st → reachable (add nm ph u st).
Proof.
  intros [evs ->]. exists (evs ++ add_events nm ph u).
  unfold add, run, add_events. by rewrite fold_left_app.
Qed.

Lemma reachable_remove rid st : reachable st → reachable (remove rid st).
Proof.
  intros [evs ->]. exists (evs ++ [ClickRemove rid]).
  unfold remove. by rewrite run_snoc.
Qed.

(** In a sequence with pairwise distinct phones, a phone that occurs
    selects exactly one entry. *)
Lemma phone_selects_one (l : list contact) p :
  NoDup (phone <$> l) → p ∈ (phone <$> l) →
  ∃ c, c ∈ l ∧ phone c = p ∧ filter (has_phone p) l = [c].
Proof.
  induction l as [| a l IH]; [by intros _ ?%elem_of_nil |].
  rewrite fmap_cons. intros [Ha Hnd]%NoDup_cons Hp.
  destruct (decide (phone a = p)) as [E | E].
  - exists a. split; [by left |]. split; [done |].
    rewrite filter_cons_True by done. f_equal.
    apply filter_none. intros c Hc Hpc. apply Ha.
    rewrite E, <- Hpc. by apply list_elem_of_fmap_2.
  - apply elem_of_cons in Hp as [Hp | Hp]; [congruence |].
    destruct (IH Hnd Hp) as (c & Hc & Hpc & Hf). exists c.
    split; [by right |]. split; [done |]. by rewrite filter_cons_False.
Qed.

End ContactStore.

Ltac solve_acceptable :=
  unfold acceptable; split; [vm_compute; discriminate |];
  split; [vm_compute; reflexivity | vm_compute; lia].

Section ContactStoreClaims.

Implicit Types (st : state) (ph nm : jsstring).

Lemma keep_fresh_survivor (l : list contact) c :
  c ∈ l → phone c ∈ (phone <$> keep_fresh ∅ l).
Proof.
  intros Hc. destruct (keep_fresh_complete ∅ l c Hc) as [H | H]; [| done].
  by apply not_elem_of_empty in H.
Qed.

Lemma keep_fresh_snoc (K : list contact) c :
  NoDup (phone <$> K) →
  keep_fresh ∅ (K ++ [c])
  = if decide (phone c ∈ (phone <$> K)) then K else K ++ [c].
Proof.
  intros Hnd. rewrite keep_fresh_app.
  rewrite (keep_fresh_id ∅ K Hnd) by (intros; apply not_elem_of_empty).
  cbn [keep_fresh]. destruct (decide (phone c ∈ (phone <$> K))) as [Hin | Hin].
  - rewrite bool_decide_eq_true_2; [by rewrite app_nil_r |].
    apply elem_of_union_r. by apply elem_of_list_to_set.
  - rewrite bool_decide_eq_false_2; [done |].
    intros [H | H%elem_of_list_to_set]%elem_of_union; [| done].
    by apply not_elem_of_empty in H.
Qed.

(** C1, as stated: the canonical digit form is unique across the contacts
    of every reachable store.  Refuted: the store reached by adding
    "555-1234567" and then "5551234567" holds two contacts whose digits are
    both 5551234567. *)
Lemma digits_unique_fails : ∃ st, reachable st ∧ ¬ digits_unique st.
Proof.
  exists (add [] (lit "5551234567") (Some (lit "b"))
            (add [] (lit "555-1234567") (Some (lit "a")) empty_store)).
  split.
  - by exists (add_events [] (lit "555-1234567") (Some (lit "a"))
                ++ add_events [] (lit "5551234567") (Some (lit "b"))).
  - unfold digits_unique. vm_compute.
    intros [Hn _]%NoDup_cons. apply Hn. by left.
Qed.

(** C1, amended: in every store reachable from the empty one, the stored
    phone strings (as entered and trimmed, not their digits) are pairwise
    distinct. *)
Theorem reachable_phones_unique st : reachable st → phones_unique st.
Proof.
  intros [evs ->]. apply run_phones_unique. constructor.
Qed.

Lemma reachable_phones_unique_witness :
  phones_unique
    (add [] (lit "5551234567") (Some (lit "b"))
       (add [] (lit "555-1234567") (Some (lit "a")) empty_store)).
Proof.
  apply reachable_phones_unique.
  by exists (add_events [] (lit "555-1234567") (Some (lit "a"))
              ++ add_events [] (lit "5551234567") (Some (lit "b"))).
Defined.

(** C2: the key of the deduplication is the stored phone string.  Two
    accepted adds with the same trimmed phone leave one entry with that
    phone, the first one in sequence order (the second add changes
    nothing); two accepted adds whose trimmed phones differ leave an entry
    for each, also when their digits agree, as for "555-1234567" and
    "5551234567". *)
Theorem add_dedup_key_is_raw_phone st nm1 nm2 p1 p2 u1 u2 :
  acceptable p1 → acceptable p2 →
  let c1 := Contact u1 (trim nm1) (trim p1) in
  let c2 := Contact u2 (trim nm2) (trim p2) in
  let st1 := add nm1 p1 (Some u1) st in
  let st2 := add nm2 p2 (Some u2) st1 in
  (trim p1 = trim p2 →
     contacts st2 = contacts st1
     ∧ ∃ i c,
         list_find (has_phone (trim p1)) (contacts st ++ [c1; c2]) = Some (i, c)
         ∧ filter (has_phone (trim p1)) (contacts st2) = [c])
  ∧ (trim p1 ≠ trim p2 →
     ∃ a b,
       filter (has_phone (trim p1)) (contacts st2) = [a]
       ∧ filter (has_phone (trim p2)) (contacts st2) = [b])
  ∧ (normalizePhone (Some (lit "555-1234567"))
       = normalizePhone (Some (lit "5551234567"))
     ∧ contacts (add nm2 (lit "5551234567") (Some u2)
                   (add nm1 (lit "555-1234567") (Some u1) empty_store))
       = [Contact u1 (trim nm1) (lit "555-1234567");
          Contact u2 (trim nm2) (lit "5551234567")]).
Proof.
  intros Hp1 Hp2 c1 c2 st1 st2.
  assert (Hst1 : contacts st1 = keep_fresh ∅ (contacts st ++ [c1]))
    by (unfold st1; by rewrite add_accepted).
  assert (Hst2 : contacts st2 = keep_fresh ∅ (contacts st1 ++ [c2]))
    by (unfold st2; by rewrite add_accepted).
  assert (Hnd1 : NoDup (phone <$> contacts st1))
    by (rewrite Hst1; apply keep_fresh_NoDup).
  assert (Hnd2 : NoDup (phone <$> contacts st2))
    by (rewrite Hst2; apply keep_fresh_NoDup).
  assert (Hin1 : trim p1 ∈ (phone <$> contacts st1)).
  { rewrite Hst1. apply (keep_fresh_survivor _ c1).
    apply elem_of_app. right. by left. }
  split; [| split].
  - intros Heq.
    assert (Hsame : contacts st2 = contacts st1).
    { rewrite Hst2, (keep_fresh_snoc _ c2 Hnd1).
      rewrite decide_True; [done |]. cbn [phone c2]. by rewrite <- Heq. }
    split; [done |]. rewrite Hsame.
    destruct (phone_selects_one _ _ Hnd1 Hin1) as (c & Hc & Hpc & Hf).
    rewrite Hst1 in Hc. apply keep_fresh_first in Hc as [i Hi].
    exists i, c. split; [| done]. rewrite Hpc in Hi.
    change [c1; c2] with ([c1] ++ [c2]). rewrite app_assoc.
    by apply list_find_app_l.
  - intros Hne.
    assert (Hin2 : ∀ c, c ∈ contacts st1 ++ [c2] →
                        phone c ∈ (phone <$> contacts st2))
      by (intros c Hc; rewrite Hst2; by apply keep_fresh_survivor).
    apply list_elem_of_fmap in Hin1 as (a0 & Ha0 & Hin1).
    assert (Ha : trim p1 ∈ (phone <$> contacts st2)).
    { rewrite Ha0. apply Hin2, elem_of_app. by left. }
    assert (Hb : trim p2 ∈ (phone <$> contacts st2)).
    { apply (Hin2 c2), elem_of_app. right. by left. }
    destruct (phone_selects_one _ _ Hnd2 Ha) as (a & _ & _ & Hfa).
    destruct (phone_selects_one _ _ Hnd2 Hb) as (b & _ & _ & Hfb).
    by exists a, b.
  - split; [reflexivity |].
    rewrite !add_accepted by solve_acceptable. reflexivity.
Qed.

Lemma add_dedup_key_is_raw_phone_witness :
  let st := empty_store in
  let st2 := add (lit "Sam") (lit " 555-1234567") (Some (lit "id-2"))
               (add (lit "Sam") (lit "555-1234567 ") (Some (lit "id-1")) st) in
  contacts st2 = [Contact (lit "id-1") (lit "Sam") (lit "555-1234567")].
Proof.
  intros st st2.
  destruct (add_dedup_key_is_raw_phone st (lit "Sam") (lit "Sam")
              (lit "555-1234567 ") (lit " 555-1234567")
              (lit "id-1") (lit "id-2")) as (Hsame & _ & _);
    [solve_acceptable | solve_acceptable |].
  destruct Hsame as [Hsame _]; [reflexivity |].
  exact Hsame.
Defined.

Lemma persistence_writes_none st cs :
  userName (commit st cs) = userName st → existsb is_SetContacts cs = false →
  persistence_writes st cs = [].
Proof.
  intros Hn Hc. unfold persistence_writes.
  by rewrite bool_decide_eq_true_2, Hc.
Qed.

Lemma rejected_with_intro e nm ph u st :
  spec_validate ph = Some e → rejected_with e nm ph u st.
Proof.
  intros He. unfold rejected_with. rewrite (add_rejected _ _ _ _ _ He).
  assert (Hh : handle (ClickAddContact u)
                 (run st [ChangeContactName nm; ChangeContactPhone ph])
               = Outcome [SetStatus (status_of_error e)] Returned).
  { cbn [handle]. rewrite addContact_cases. cbn. by rewrite He. }
  split; [done |]. split; [done |]. split; [done |].
  unfold add_events. cbn [run_writes]. rewrite app_nil_r.
  change (step (step st (ChangeContactName nm)) (ChangeContactPhone ph))
    with (run st [ChangeContactName nm; ChangeContactPhone ph]).
  rewrite Hh. cbn. by rewrite !persistence_writes_none.
Qed.

(** C3: [add] checks, in this order, that the trimmed phone is not empty
    (EmptyPhone), that the phone is not a blocked number (BlockedNumber)
    and that it has at least 7 digits (TooShort).  In each case the
    handler returns after setting the status text, without throwing; the
    contact sequence is unchanged and no persistence write happens. *)
Theorem add_validation_order st nm ph u :
  (trim ph = [] → rejected_with EmptyPhone nm ph u st)
  ∧ (trim ph ≠ [] → isBlockedNumber (Some ph) = true →
     rejected_with BlockedNumber nm ph u st)
  ∧ (trim ph ≠ [] → isBlockedNumber (Some ph) = false →
     (length (normalizePhone (Some ph)) < 7)%nat →
     rejected_with TooShort nm ph u st).
Proof.
  split; [| split].
  - intros Ht. apply rejected_with_intro. unfold spec_validate.
    by rewrite bool_decide_eq_true_2.
  - intros Ht Hb. apply rejected_with_intro. unfold spec_validate.
    by rewrite bool_decide_eq_false_2, Hb.
  - intros Ht Hb Hlen. apply rejected_with_intro. unfold spec_validate.
    rewrite bool_decide_eq_false_2, Hb by done.
    by rewrite (proj2 (Nat.ltb_lt _ _)).
Qed.

Lemma add_validation_order_witness :
  rejected_with EmptyPhone (lit "Sam") (lit "   ") None empty_store
  ∧ rejected_with BlockedNumber (lit "Sam") (lit " 9-1-1 ") None empty_store
  ∧ rejected_with TooShort (lit "Sam") (lit "123456") None empty_store.
Proof.
  split; [| split].
  - apply (add_validation_order empty_store (lit "Sam") (lit "   ") None).
    reflexivity.
  - apply (add_validation_order empty_store (lit "Sam") (lit " 9-1-1 ") None).
    + vm_compute. discriminate.
    + reflexivity.
  - apply (add_validation_order empty_store (lit "Sam") (lit "123456") None).
    + vm_compute. discriminate.
    + reflexivity.
    + vm_compute. lia.
Defined.

(** C9: an accepted add leaves a sequence with pairwise distinct phone
    strings whatever the sequence before was (also one loaded from storage
    with repeated phones): the result is a subsequence of the appended
    sequence, every phone of the appended sequence is still present, and
    each surviving contact is the first one of the appended sequence with
    its phone. *)
Theorem add_dedups_whole_sequence st uuid :
  acceptable (contactPhone st) →
  let next :=
    contacts st
    ++ [Contact uuid (trim (contactName st)) (trim (contactPhone st))] in
  let st' := step st (ClickAddContact (Some uuid)) in
  NoDup (phone <$> contacts st')
  ∧ contacts st' `sublist_of` next
  ∧ (∀ c, c ∈ next → phone c ∈ (phone <$> contacts st'))
  ∧ (∀ c, c ∈ contacts st' →
          ∃ i, list_find (has_phone (phone c)) next = Some (i, c)).
Proof.
  intros Hacc%spec_validate_None next st'.
  assert (Hst' : contacts st' = keep_fresh ∅ next).
  { unfold st', step, handle. rewrite addContact_cases, Hacc.
    cbn. by rewrite dedup_by_phone_eq. }
  rewrite Hst'. split; [apply keep_fresh_NoDup |].
  split; [apply keep_fresh_sublist |].
  split; [apply keep_fresh_survivor | apply keep_fresh_first].
Qed.

Lemma add_dedups_whole_sequence_witness :
  let loaded :=
    [Contact (lit "a") (lit "Ann") (lit "1234567");
     Contact (lit "b") (lit "Bob") (lit "1234567")] in
  let st := step (mount None (Some loaded)) (ChangeContactPhone (lit "7654321")) in
  contacts (step st (ClickAddContact (Some (lit "c"))))
  = [Contact (lit "a") (lit "Ann") (lit "1234567");
     Contact (lit "c") [] (lit "7654321")]
  ∧ NoDup (phone <$> contacts (step st (ClickAddContact (Some (lit "c"))))).
Proof.
  intros loaded st. split; [reflexivity |].
  apply (add_dedups_whole_sequence st (lit "c")). solve_acceptable.
Defined.

(** C10: [recipientsCsv] is not injective on reachable stores.  A phone
    text with a comma in it passes the checks of [add] like any other text
    with at least 7 digits that is not a blocked number, and the one
    contact "1234567,7654321" gives the same comma-joined recipients as
    the two contacts "1234567" and "7654321". *)
Theorem recipientsCsv_not_injective :
  acceptable (lit "1234567,7654321")
  ∧ (∀ st nm ph uuid,
       acceptable ph → trim ph ∈ (phone <$> contacts (add nm ph (Some uuid) st)))
  ∧ ∃ st1 st2,
      reachable st1 ∧ reachable st2
      ∧ phone <$> contacts st1 = [lit "1234567,7654321"]
      ∧ phone <$> contacts st2 = [lit "1234567"; lit "7654321"]
      ∧ recipientsCsv st1 = recipientsCsv st2.
Proof.
  split; [solve_acceptable |]. split.
  - intros st nm ph uuid Hacc. rewrite (add_accepted _ _ _ _ Hacc).
    cbn [contacts].
    apply (keep_fresh_survivor _ (Contact uuid (trim nm) (trim ph))).
    apply elem_of_app. right. by left.
  - exists (run empty_store (add_events [] (lit "1234567,7654321") (Some (lit "a")))).
    exists (run empty_store
              (add_events [] (lit "1234567") (Some (lit "a"))
               ++ add_events [] (lit "7654321") (Some (lit "b")))).
    split; [by eexists |]. split; [by eexists |].
    split; [reflexivity |]. split; reflexivity.
Qed.

Lemma recipientsCsv_not_injective_witness :
  lit "1234567,7654321"
  ∈ (phone <$> contacts (add [] (lit " 1234567,7654321 ") (Some (lit "a"))
                             empty_store)).
Proof.
  apply (proj1 (proj2 recipientsCsv_not_injective)
           empty_store [] (lit " 1234567,7654321 ") (lit "a")).
  solve_acceptable.
Defined.

End ContactStoreClaims.

(** ** PhoneNormalizer *)

Section Blocked.

Lemma formatted_digits n s : formatted n s → replace_non_digits s = n.
Proof.
  unfold replace_non_digits. induction 1 as [| d n s Hd _ IH | c n s Hc _ IH].
  - done.
  - rewrite filter_cons_True by (cbn; by rewrite Hd). by rewrite IH.
  - rewrite filter_cons_False by (cbn; rewrite Hc; intros []). done.
Qed.

(** C7: [isBlockedNumber] holds exactly of the texts whose digits are 911,
    112, 999 or 988; so it holds of each of the four numbers with any
    characters other than digits put in (punctuation, spaces), and it does
    not hold of "1234567". *)
Theorem isBlockedNumber_iff :
  (∀ text,
     isBlockedNumber text = true
     ↔ normalizePhone text ∈ [lit "911"; lit "112"; lit "999"; lit "988"])
  ∧ (∀ n s,
       n ∈ [lit "911"; lit "112"; lit "999"; lit "988"] → formatted n s →
       isBlockedNumber (Some s) = true)
  ∧ isBlockedNumber (Some (lit "1234567")) = false.
Proof.
  assert (Hiff : ∀ text,
     isBlockedNumber text = true
     ↔ normalizePhone text ∈ [lit "911"; lit "112"; lit "999"; lit "988"]).
  { intros text. unfold isBlockedNumber. apply includes_spec. }
  split; [done |]. split; [| reflexivity].
  intros n s Hn Hf. apply Hiff.
  change (normalizePhone (Some s)) with (replace_non_digits s).
  by rewrite (formatted_digits _ _ Hf).
Qed.

Lemma isBlockedNumber_iff_witness :
  isBlockedNumber (Some (lit "(9) 8-8 ")) = true.
Proof.
  apply (proj1 (proj2 isBlockedNumber_iff) (lit "988")).
  - do 3 right. left.
  - repeat constructor.
Defined.

End Blocked.

(** ** Decimal rendering *)

Section Decimal.

Lemma decimal_value_snoc s c :
  decimal_value (s ++ [c]) = 10 * decimal_value s + (c - 48).
Proof. unfold decimal_value. by rewrite fold_left_app. Qed.

Lemma decimal_value_zeros k s :
  decimal_value (repeat 48 k ++ s) = decimal_value s.
Proof.
  unfold decimal_value. rewrite fold_left_app. f_equal.
  induction k as [| k IH]; [done |]. cbn [repeat fold_left].
  by replace (10 * 0 + (48 - 48)) with 0 by lia.
Qed.

Lemma decimal_digits_fuel_step fuel n :
  decimal_digits_fuel (S fuel) n
  = if n <? 10 then [48 + n]
    else decimal_digits_fuel fuel (n / 10) ++ [48 + n mod 10].
Proof. reflexivity. Qed.

Lemma is_digit_offset k : k < 10 → is_digit (48 + k) = true.
Proof.
  intros Hk. unfold is_digit.
  apply andb_true_intro. split; apply N.leb_le; lia.
Qed.

Lemma decimal_digits_fuel_spec fuel n :
  n < 2 ^ N.of_nat fuel →
  let s := decimal_digits_fuel (S fuel) n in
  Forall (λ c, is_digit c = true) s ∧ decimal_value s = n ∧ s ≠ [].
Proof.
  revert n. induction fuel as [| fuel IH]; intros n Hn.
  - assert (n = 0) as -> by (cbn in Hn; lia).
    cbn. split; [by repeat constructor | done].
  - cbv zeta. rewrite decimal_digits_fuel_step.
    destruct (N.ltb_spec n 10) as [Hlt | Hge].
    + split; [| split; [| done]].
      * constructor; [by apply is_digit_offset | constructor].
      * unfold decimal_value. cbn [fold_left]. lia.
    + assert (Hdiv : n / 10 < 2 ^ N.of_nat fuel).
      { rewrite Nat2N.inj_succ, N.pow_succ_r' in Hn.
        apply N.Div0.div_lt_upper_bound.
        revert Hn. generalize (2 ^ N.of_nat fuel). intros P HP. lia. }
      destruct (IH _ Hdiv) as (Hd & Hv & _).
      pose proof (N.mod_upper_bound n 10 ltac:(lia)) as Hmod.
      split; [| split].
      * apply Forall_app. split; [done |].
        constructor; [by apply is_digit_offset | constructor].
      * rewrite decimal_value_snoc, Hv.
        pose proof (N.div_mod n 10 ltac:(lia)) as Hdm. clear -Hmod Hdm.
        revert Hmod Hdm. generalize (n / 10) (n mod 10). intros q r ? ?. lia.
      * by intros [? ?]%app_eq_nil.
Qed.

Lemma decimal_digits_spec n :
  Forall (λ c, is_digit c = true) (decimal_digits n)
  ∧ decimal_value (decimal_digits n) = n ∧ decimal_digits n ≠ [].
Proof.
  unfold decimal_digits. apply decimal_digits_fuel_spec.
  rewrite N2Nat.id. apply N.size_gt.
Qed.

(** With six places, [place_point] splits the padded digits before the
    last six. *)
Lemma place_point_six m :
  m ≠ [] →
  ∃ ip fp k,
    place_point m 6 = ip ++ lit "." ++ fp
    ∧ ip ++ fp = repeat 48 k ++ m
    ∧ ip ≠ [] ∧ length fp = 6%nat.
Proof.
  intros Hm. unfold place_point.
  set (k := (if (length m <=? 6)%nat then (6 + 1 - length m)%nat else 0%nat)).
  set (m' := if (length m <=? 6)%nat then repeat 48 (6 + 1 - length m) ++ m
             else m).
  assert (Hm' : m' = repeat 48 k ++ m).
  { unfold m', k. by destruct (length m <=? 6)%nat. }
  assert (Hlen : (7 ≤ length m')%nat).
  { unfold m'. destruct (Nat.leb_spec (length m) 6).
    - rewrite length_app, repeat_length. lia.
    - lia. }
  exists (take (length m' - 6) m'), (drop (length m' - 6) m'), k.
  split; [done |]. split; [by rewrite take_drop |].
  split.
  - intros E. apply (f_equal length) in E.
    rewrite length_take in E. cbn in E. lia.
  - rewrite length_drop. lia.
Qed.

Lemma nearest_scaled_close x :
  (Z.abs (2 * (Z.of_N (nearest_scaled x 6) * abs_denom x
               - abs_numer x * 10 ^ 6))
   ≤ abs_denom x)%Z.
Proof.
  unfold nearest_scaled.
  assert (Hd : (0 < abs_denom x)%Z)
    by (unfold abs_denom; apply Z.pow_pos_nonneg; lia).
  assert (Ha : (0 ≤ abs_numer x)%Z).
  { unfold abs_numer. apply Z.mul_nonneg_nonneg; [lia |].
    apply Z.pow_nonneg. lia. }
  set (a := abs_numer x) in *. set (d := abs_denom x) in *.
  change (Z.of_nat 6) with 6%Z.
  set (A := (a * 10 ^ 6)%Z).
  assert (HA : (0 ≤ A)%Z) by (unfold A; lia).
  replace (2 * a * 10 ^ 6)%Z with (2 * A)%Z by (unfold A; lia).
  set (q := ((2 * A + d) / (2 * d))%Z).
  assert (Hq : (0 ≤ q)%Z) by (apply Z.div_pos; lia).
  rewrite Z2N.id by done.
  pose proof (Z.mul_div_le (2 * A + d) (2 * d) ltac:(lia)) as Hlo.
  pose proof (Z.mul_succ_div_gt (2 * A + d) (2 * d) ltac:(lia)) as Hhi.
  fold q in Hlo, Hhi. lia.
Qed.

(** Degree values (at most 180 in magnitude) are far below the bound from
    which [toFixed] changes notation. *)
Lemma degrees_not_huge x :
  (abs_numer x ≤ 180 * abs_denom x)%Z → is_huge x = false.
Proof.
  intros Hx. unfold is_huge. apply Z.leb_gt.
  assert (Hd : (0 < abs_denom x)%Z)
    by (unfold abs_denom; apply Z.pow_pos_nonneg; lia).
  revert Hx Hd. generalize (abs_numer x) (abs_denom x). intros a d ? ?.
  change (10 ^ 21)%Z with 1000000000000000000000%Z. lia.
Qed.

End Decimal.

(** ** Message composition *)

(** C4, as stated: the last line of the message is "Time: {formatted
    time}." with a full stop.  Refuted: the message the code builds for
    the name Alex, no link and the time "11/1/2026, 7:47:00 PM" is not the
    text with that last line. *)
Lemma message_differs_from_spec :
  message_text (lit "Alex") [] (lit "11/1/2026, 7:47:00 PM")
  ≠ spec_message_text (lit "Alex") [] (lit "11/1/2026, 7:47:00 PM").
Proof. vm_compute. discriminate. Qed.

(** C4, amended: the message is the newline-separated sequence of (1) "My
    name is {userName}." for a non-empty user name, else "This is an SOS
    message."; (2) the detained line; (3) the check-on-me line; (4) for a
    non-empty link "My last known location is below:" and the link on its
    own line, else "My location is unavailable right now."; (5) the last
    line "Time: {formatted time}", which ends with the time (no full stop
    is added, no newline follows). *)
Theorem message_text_lines userName link time :
  message_text userName link time
  = join nl
      ([if truthy userName then lit "My name is " ++ userName ++ lit "."
        else lit "This is an SOS message."]
       ++ [line_detained; line_check]
       ++ (if truthy link then [line_location_below; link]
           else [line_location_unavailable])
       ++ [lit "Time: " ++ time]).
Proof.
  unfold message_text.
  generalize (if truthy userName then lit "My name is " ++ userName ++ lit "."
              else lit "This is an SOS message.") as nameLine.
  generalize (lit "Time: " ++ time) as timeLine.
  generalize line_detained line_check line_location_below
    line_location_unavailable nl.
  intros l2 l3 l4a l4b sep timeLine nameLine.
  destruct (truthy link); cbn [join app]; by rewrite <- ?app_assoc.
Qed.

Example message_alex_unknown :
  message_text (lit "Alex") [] (lit "T")
  = lit "My name is Alex." ++ nl ++ line_detained ++ nl ++ line_check ++ nl
    ++ lit "My location is unavailable right now." ++ nl ++ lit "Time: T".
Proof. reflexivity. Qed.

(** ** Location probe and [sendSOS] *)

Section Probe.

Lemma first_callback_None f t :
  first_callback f t = None ↔ ∀ t', (t' ≤ t)%nat → f t' = None.
Proof.
  induction t as [| t IH]; cbn [first_callback].
  - split.
    + intros H t' Ht'. by replace t' with 0%nat by lia.
    + intros H. apply H. lia.
  - destruct (first_callback f t) as [c |] eqn:E.
    + split; [done |]. intros H.
      assert (Hn : Some c = None) by (apply IH; intros; apply H; lia).
      done.
    + split.
      * intros H t' Ht'. destruct (decide (t' = S t)) as [-> | Hne]; [done |].
        apply (proj1 IH eq_refl). lia.
      * intros H. apply H. lia.
Qed.

Lemma first_callback_stable f t t' c :
  (t ≤ t')%nat → first_callback f t = Some c → first_callback f t' = Some c.
Proof.
  intros Hle Hc. induction Hle as [| t' _ IH]; [done |].
  cbn [first_callback]. by rewrite IH.
Qed.

(** C8, as stated: the probe resolves within the bound even when the
    sensor invokes neither callback.  Refuted: with a sensor that stays
    silent the promise of [getLocationOnce] is pending at every time, and
    a [sendSOS] with contacts stays suspended at its [await], having
    composed and dispatched nothing. *)
Lemma probe_pending_forever :
  ∃ nav,
    geolocation nav = Some silent_sensor
    ∧ (∀ t, getLocationOnce nav t = Pending)
    ∧ ∀ numberToString encodeURIComponent time t st,
        contacts st ≠ [] →
        sendSOS numberToString encodeURIComponent nav time t st
        = Outcome [SetStatus status_locating;
                   GetCurrentPosition location_options] Awaiting.
Proof.
  exists (Navigator (Some silent_sensor)).
  assert (Hp : ∀ t, getLocationOnce (Navigator (Some silent_sensor)) t = Pending).
  { intros t. unfold getLocationOnce. cbn [geolocation].
    by rewrite (proj2 (first_callback_None _ t)). }
  split; [done |]. split; [done |].
  intros nts enc time t st Hc. unfold sendSOS. rewrite Hp.
  by destruct (contacts st).
Qed.

(** C8, amended: the probe asks the sensor for one position with a
    timeout of 10000 ms and has no timer of its own.  Its promise is
    rejected at once when there is no sensor; otherwise it is pending
    exactly as long as the sensor has invoked no callback, and once
    settled it keeps its state. *)
Theorem getLocationOnce_settles_with_sensor nav t :
  location_options = PositionOptions true 10000 0
  ∧ (geolocation nav = None → getLocationOnce nav t = Rejected NotSupported)
  ∧ (getLocationOnce nav t = Pending
     ↔ ∃ device,
         geolocation nav = Some device
         ∧ ∀ t', (t' ≤ t)%nat → device location_options t' = None)
  ∧ (∀ t', (t ≤ t')%nat → getLocationOnce nav t ≠ Pending →
           getLocationOnce nav t' = getLocationOnce nav t).
Proof.
  split; [done |]. unfold getLocationOnce.
  destruct (geolocation nav) as [device |].
  - split; [done |]. split.
    + destruct (first_callback (device location_options) t) as [c |] eqn:E.
      * split; [by destruct c |]. intros (d & [= <-] & Hd).
        apply first_callback_None in Hd. congruence.
      * split; [| done]. intros _. exists device. split; [done |].
        by apply first_callback_None.
    + intros t' Hle.
      destruct (first_callback (device location_options) t) as [c |] eqn:E;
        [| done].
      intros _. by rewrite (first_callback_stable _ _ _ _ Hle E).
  - split; [done |]. split; [| done].
    split; [done |]. by intros (d & [=] & _).
Qed.

End Probe.

Lemma getLocationOnce_settles_with_sensor_witness :
  let device : sensor :=
    λ _ t, if (t =? 250)%nat then Some (Failure (PositionError 3)) else None in
  getLocationOnce (Navigator None) 0 = Rejected NotSupported
  ∧ getLocationOnce (Navigator (Some device)) 300
    = Rejected (SensorError (PositionError 3)).
Proof.
  intros device. split.
  - by apply (getLocationOnce_settles_with_sensor (Navigator None) 0).
  - apply (proj2 (proj2 (proj2
      (getLocationOnce_settles_with_sensor (Navigator (Some device)) 250)))).
    + lia.
    + discriminate.
Defined.

Section SendSOS.

Variable numberToString : double → jsstring.
Variable encodeURIComponent : jsstring → option jsstring.

(** Below [10^21], [toFixed(6)] renders six fractional digits of the
    nearest multiple of [10^-6]. *)
Lemma toFixed_six x :
  is_huge x = false → six_fraction_digits x (toFixed numberToString x 6).
Proof.
  intros Hx. unfold toFixed. rewrite Hx.
  destruct (decimal_digits_spec (nearest_scaled x 6)) as (Hd & Hv & Hne).
  destruct (place_point_six _ Hne) as (ip & fp & k & Hpp & Hcat & Hip & Hfp).
  exists ip, fp. rewrite Hpp. split; [done |]. split; [done |].
  split; [done |]. rewrite Hcat. split.
  - apply Forall_app. split; [| done].
    apply Forall_forall. intros c Hc%list_elem_of_In%repeat_spec. by subst.
  - rewrite decimal_value_zeros, Hv. apply nearest_scaled_close.
Qed.

(** C5: the link is empty when the probe gave no position; for a position
    whose coordinates are below [10^21] in magnitude (as every degree value
    is) it is "https://maps.google.com/?q=" followed by the latitude, a
    comma and the longitude, each rendered with six fractional digits; for
    latitude 37 and longitude -122 it is
    "https://maps.google.com/?q=37.000000,-122.000000". *)
Theorem link_of_position :
  (∀ reason, link_of numberToString (Rejected reason) = [])
  ∧ (∀ pos,
       is_huge (latitude (coords pos)) = false →
       is_huge (longitude (coords pos)) = false →
       ∃ lat lon,
         link_of numberToString (Fulfilled pos)
         = lit "https://maps.google.com/?q=" ++ lat ++ lit "," ++ lon
         ∧ six_fraction_digits (latitude (coords pos)) lat
         ∧ six_fraction_digits (longitude (coords pos)) lon)
  ∧ link_of numberToString (Fulfilled (Position (Coordinates (Double 37 0) (Double (-122) 0))))
    = lit "https://maps.google.com/?q=37.000000,-122.000000".
Proof.
  split; [done |]. split; [| reflexivity].
  intros pos Hlat Hlon.
  exists (toFixed numberToString (latitude (coords pos)) 6),
    (toFixed numberToString (longitude (coords pos)) 6).
  split; [reflexivity |]. split; by apply toFixed_six.
Qed.

(** The message and the link that a settled probe leads to are handed to
    [setLastMessage] and [setLastLink]. *)
Lemma sendSOS_composes nav time t st :
  contacts st ≠ [] → getLocationOnce nav t ≠ Pending →
  let link := link_of numberToString (getLocationOnce nav t) in
  SetLastLink link ∈ calls (sendSOS numberToString encodeURIComponent nav time t st)
  ∧ SetLastMessage (message_text (userName st) link time)
    ∈ calls (sendSOS numberToString encodeURIComponent nav time t st).
Proof.
  intros Hc Hp link. unfold sendSOS. fold link.
  destruct (contacts st) as [| c cs] eqn:Ec; [done |]. cbn [length negb].
  replace (negb (0 <? N.of_nat (S (length cs)))) with false
    by (symmetry; apply negb_false_iff, N.ltb_lt; lia).
  destruct (getLocationOnce nav t) as [| pos | reason] eqn:Ep; [done | |].
  all: destruct (encodeURIComponent _) as [to |];
    [destruct (encodeURIComponent _) as [body |] |];
    cbn [calls]; rewrite ?elem_of_cons, ?elem_of_app, ?elem_of_cons;
    split; tauto.
Qed.

(** C6: with no contacts [sendSOS] sets the status "Add at least one
    contact first." and returns: it does nothing else, so it calls neither
    the position sensor nor the dispatch ([location.href]), and the last
    message and the last link are the ones before. *)
Theorem sendSOS_no_contacts nav time t st :
  contacts st = [] →
  sendSOS numberToString encodeURIComponent nav time t st = Outcome [SetStatus status_no_contacts] Returned
  ∧ (∀ c, c ∈ calls (sendSOS numberToString encodeURIComponent nav time t st) →
          (∀ o, c ≠ GetCurrentPosition o) ∧ (∀ url, c ≠ SetLocationHref url))
  ∧ status (commit st (calls (sendSOS numberToString encodeURIComponent nav time t st))) = status_no_contacts
  ∧ lastMessage (commit st (calls (sendSOS numberToString encodeURIComponent nav time t st))) = lastMessage st
  ∧ lastLink (commit st (calls (sendSOS numberToString encodeURIComponent nav time t st))) = lastLink st.
Proof.
  intros Hc.
  assert (Hs : sendSOS numberToString encodeURIComponent nav time t st
               = Outcome [SetStatus status_no_contacts] Returned)
    by (unfold sendSOS; by rewrite Hc).
  rewrite Hs. split; [done |]. split; [| done].
  intros c ->%list_elem_of_singleton. by split.
Qed.

End SendSOS.

Lemma link_of_position_witness :
  let pos := Position (Coordinates (Double 5296233576943923 (-47))
                                   (Double (-3) (-1))) in
  ∃ lat lon,
    link_of (λ _, []) (Fulfilled pos)
    = lit "https://maps.google.com/?q=" ++ lat ++ lit "," ++ lon
    ∧ six_fraction_digits (latitude (coords pos)) lat
    ∧ six_fraction_digits (longitude (coords pos)) lon.
Proof.
  intros pos.
  apply (proj1 (proj2 (link_of_position (λ _, []))) pos); reflexivity.
Defined.

Lemma sendSOS_no_contacts_witness :
  let nav := Navigator (Some (λ _ _, Some (Failure (PositionError 1)))) in
  sendSOS (λ _, []) Some nav (lit "11/1/2026, 7:47:00 PM") 5 empty_store
  = Outcome [SetStatus status_no_contacts] Returned.
Proof.
  intros nav.
  apply (sendSOS_no_contacts (λ _, []) Some nav (lit "11/1/2026, 7:47:00 PM")
           5 empty_store).
  reflexivity.
Defined.

(** * Further properties of the code *)

(** ** [trim] and [normalizePhone] *)

Section TrimFacts.

Lemma trim_start_head s c r : trim_start s = c :: r → is_trimmed_char c = false.
Proof.
  induction s as [| a s IH]; [done |]. cbn [trim_start].
  destruct (is_trimmed_char a) eqn:E; [done |]. by intros [= <- _].
Qed.

Lemma trim_start_keep c r : is_trimmed_char c = false → trim_start (c :: r) = c :: r.
Proof. intros E. cbn [trim_start]. by rewrite E. Qed.

Lemma trim_start_snoc l c :
  is_trimmed_char c = false → trim_start (l ++ [c]) = trim_start l ++ [c].
Proof.
  intros E. induction l as [| a l IH]; cbn [trim_start app].
  - by rewrite E.
  - by destruct (is_trimmed_char a).
Qed.

(** The result of [trim] is empty, or begins and ends with characters
    that [trim] does not remove. *)
Lemma trim_shape s :
  trim s = []
  ∨ ∃ c r c' r',
      trim s = c :: r ∧ is_trimmed_char c = false
      ∧ trim s = r' ++ [c'] ∧ is_trimmed_char c' = false.
Proof.
  unfold trim, trim_end.
  destruct (trim_start s) as [| c r] eqn:Es; [by left | right].
  pose proof (trim_start_head _ _ _ Es) as Hc.
  rewrite reverse_cons, (trim_start_snoc _ _ Hc), reverse_snoc.
  destruct (trim_start (reverse r)) as [| d q] eqn:Eq.
  - exists c, [], c, []. by rewrite reverse_nil.
  - pose proof (trim_start_head _ _ _ Eq) as Hd.
    exists c, (reverse (d :: q)), d, (c :: reverse q).
    split; [done |]. split; [done |]. split; [| done].
    by rewrite reverse_cons.
Qed.

Lemma trim_idemp s : trim (trim s) = trim s.
Proof.
  destruct (trim_shape s) as [-> | (c & r & c' & r' & E1 & Hc & E2 & Hc')];
    [done |].
  unfold trim at 1, trim_end. rewrite E1 at 1.
  rewrite (trim_start_keep _ _ Hc), <- E1, E2.
  by rewrite reverse_snoc, (trim_start_keep _ _ Hc'), <- reverse_snoc,
    reverse_involutive.
Qed.





End TrimFacts.

(** ** Which texts [addContact] accepts *)

Section Acceptance.

Implicit Types (st : state) (ph nm : jsstring).

Lemma blocked_three_digits input :
  isBlockedNumber input = true → length (normalizePhone input) = 3%nat.
Proof.
  unfold isBlockedNumber. intros Hin%includes_spec.
  unfold blocked_numbers in Hin.
  repeat (apply elem_of_cons in Hin as [-> | Hin]; [done |]).
  by apply elem_of_nil in Hin.
Qed.

Lemma acceptable_iff ph :
  acceptable ph ↔ (7 ≤ length (normalizePhone (Some ph)))%nat.
Proof.
  split; [by intros (_ & _ & ?) |]. intros Hlen.
  split; [| split; [| done]].
  - intros Ht. rewrite <- normalizePhone_trim, Ht in Hlen. cbn in Hlen. lia.
  - destruct (isBlockedNumber (Some ph)) eqn:Hb; [| done].
    apply blocked_three_digits in Hb. lia.
Qed.

Lemma status_of_error_not_saved e : status_of_error e ≠ status_saved.
Proof. by destruct e. Qed.

(** X2: [add] succeeds ("Contact saved.") exactly for the phone texts with
    at least seven digits.  A blocked number has three digits, so the
    blocked-number guard decides the status text of a rejection only, never
    whether a text is accepted. *)
Theorem add_accepts_iff_seven_digits st nm ph uuid :
  (status (add nm ph (Some uuid) st) = status_saved
   ↔ (7 ≤ length (normalizePhone (Some ph)))%nat)
  ∧ (isBlockedNumber (Some ph) = true
     → length (normalizePhone (Some ph)) = 3%nat).
Proof.
  split; [| apply blocked_three_digits].
  rewrite <- acceptable_iff. split.
  - intros Hs. apply spec_validate_None.
    destruct (spec_validate ph) as [e |] eqn:He; [| done].
    rewrite (add_rejected _ _ _ _ _ He) in Hs. cbn in Hs.
    by apply status_of_error_not_saved in Hs.
  - intros Hacc. by rewrite (add_accepted _ _ _ _ Hacc).
Qed.

Lemma add_accepts_iff_seven_digits_witness :
  length (normalizePhone (Some (lit " 9-8-8 "))) = 3%nat.
Proof.
  apply (proj2 (add_accepts_iff_seven_digits empty_store [] (lit " 9-8-8 ") [])).
  reflexivity.
Defined.

Lemma step_well_formed st ev :
  Forall well_formed_contact (contacts st) →
  Forall well_formed_contact (contacts (step st ev)).
Proof.
  intros Hst. unfold step.
  destruct ev as [v | v | v | u | rid]; cbn [handle]; try done.
  - rewrite addContact_cases.
    destruct (spec_validate (contactPhone st)) eqn:He; [done |].
    destruct u as [uuid |]; [| done].
    cbn. rewrite dedup_by_phone_eq. apply Forall_forall.
    intros c [_ Hc]%keep_fresh_elem.
    apply elem_of_app in Hc as [Hc | ->%list_elem_of_singleton].
    + by apply (proj1 (Forall_forall _ _) Hst).
    + apply spec_validate_None in He as (_ & Hb & Hlen).
      unfold well_formed_contact. cbn [phone name].
      rewrite !trim_idemp, normalizePhone_trim, isBlockedNumber_trim.
      done.
  - cbn. apply Forall_forall. intros c [_ Hc]%list_elem_of_filter.
    by apply (proj1 (Forall_forall _ _) Hst).
Qed.

Lemma run_well_formed st evs :
  Forall well_formed_contact (contacts st) →
  Forall well_formed_contact (contacts (run st evs)).
Proof.
  intros Hst. induction evs as [| ev evs IH] using rev_ind; [done |].
  rewrite run_snoc. by apply step_well_formed.
Qed.

(** X3: every contact of a store reachable from the empty one has a
    trimmed phone and a trimmed name, at least seven digits in its phone,
    and is not a blocked number. *)
Theorem reachable_contacts_well_formed st c :
  reachable st → c ∈ contacts st →
  trim (phone c) = phone c ∧ trim (name c) = name c
  ∧ (7 ≤ length (normalizePhone (Some (phone c))))%nat
  ∧ isBlockedNumber (Some (phone c)) = false.
Proof.
  intros [evs ->] Hc.
  assert (H : Forall well_formed_contact (contacts (run empty_store evs)))
    by (apply run_well_formed; constructor).
  by apply (proj1 (Forall_forall _ _) H).
Qed.

Lemma reachable_contacts_well_formed_witness :
  let st := add (lit " Ann ") (lit "  555-1234567 ") (Some (lit "a"))
              empty_store in
  let c := Contact (lit "a") (lit "Ann") (lit "555-1234567") in
  trim (phone c) = phone c ∧ trim (name c) = name c
  ∧ (7 ≤ length (normalizePhone (Some (phone c))))%nat
  ∧ isBlockedNumber (Some (phone c)) = false.
Proof.
  intros st c. apply (reachable_contacts_well_formed st c).
  - by exists (add_events (lit " Ann ") (lit "  555-1234567 ") (Some (lit "a"))).
  - vm_compute. left.
Defined.

End Acceptance.

(** ** More on the contact store *)

Section StoreOperations.

Implicit Types (st : state) (ph nm : jsstring) (l : list contact).

Lemma filter_all (P : contact → Prop) `{∀ c, Decision (P c)} l :
  (∀ c, c ∈ l → P c) → filter P l = l.
Proof.
  induction l as [| a l IH]; intros Hl; [done |].
  rewrite filter_cons_True by (apply Hl; by left).
  f_equal. apply IH. intros c Hc. apply Hl. by right.
Qed.

Lemma dedup_by_phone_fixed l :
  dedup_by_phone l = l ↔ NoDup (phone <$> l).
Proof.
  rewrite dedup_by_phone_eq. split.
  - intros <-. apply keep_fresh_NoDup.
  - intros Hnd. apply keep_fresh_id; [done |].
    intros; apply not_elem_of_empty.
Qed.

(** X4: deduplication is idempotent, it changes a sequence exactly when
    two of its entries share a phone string, and it never lengthens it. *)
Theorem dedup_by_phone_idempotent l :
  dedup_by_phone (dedup_by_phone l) = dedup_by_phone l
  ∧ (dedup_by_phone l = l ↔ NoDup (phone <$> l))
  ∧ (length (dedup_by_phone l) ≤ length l)%nat.
Proof.
  split; [| split; [apply dedup_by_phone_fixed |]].
  - apply dedup_by_phone_fixed. rewrite dedup_by_phone_eq.
    apply keep_fresh_NoDup.
  - rewrite dedup_by_phone_eq. apply sublist_length, keep_fresh_sublist.
Qed.

Lemma add_writes_accepted nm ph uuid st :
  acceptable ph →
  run_writes st (add_events nm ph (Some uuid))
  = [SaveJson STORAGE_CONTACTS (contacts (add nm ph (Some uuid) st))].
Proof.
  intros Hacc. rewrite (add_accepted _ _ _ _ Hacc).
  apply spec_validate_None in Hacc.
  unfold add_events. cbn [run_writes]. rewrite app_nil_r.
  rewrite !persistence_writes_none by done. cbn [app handle].
  rewrite addContact_cases.
  cbn [step handle calls commit fold_left apply_call contactPhone contactName
       contacts userName status lastMessage lastLink].
  rewrite Hacc. cbn [calls]. unfold persistence_writes.
  cbn [commit fold_left apply_call userName contacts existsb is_SetContacts
       orb].
  rewrite bool_decide_eq_true_2 by done.
  by rewrite dedup_by_phone_eq.
Qed.

Lemma add_fresh_contacts nm ph uuid st :
  acceptable ph → phones_unique st → trim ph ∉ (phone <$> contacts st) →
  contacts (add nm ph (Some uuid) st)
  = contacts st ++ [Contact uuid (trim nm) (trim ph)].
Proof.
  intros Hacc Hnd Hnew. rewrite (add_accepted _ _ _ _ Hacc). cbn [contacts].
  rewrite (keep_fresh_snoc _ _ Hnd). by rewrite decide_False.
Qed.

Lemma join_cons sep x (arr : list (list N)) :
  join sep (x :: arr)
  = x ++ match arr with [] => [] | _ :: _ => sep ++ join sep arr end.
Proof. destruct arr; cbn [join]; by rewrite ?app_nil_r. Qed.

Lemma join_snoc sep (arr : list (list N)) x :
  join sep (arr ++ [x])
  = match arr with [] => x | _ :: _ => join sep arr ++ sep ++ x end.
Proof.
  induction arr as [| a arr IH]; [done |].
  cbn [app]. rewrite !join_cons, IH.
  destruct arr as [| b arr]; cbn [app]; [by rewrite app_nil_r |].
  by rewrite <- !app_assoc.
Qed.

(** X5: an accepted add of a phone string that no contact of a
    duplicate-free store has appends exactly one contact (fresh id, trimmed
    name, trimmed phone) at the end, empties the two inputs, writes the new
    list to storage once, and extends the recipient list by a comma and
    the new phone. *)
Theorem add_fresh_appends nm ph uuid st :
  acceptable ph → phones_unique st → trim ph ∉ (phone <$> contacts st) →
  let st' := add nm ph (Some uuid) st in
  contacts st' = contacts st ++ [Contact uuid (trim nm) (trim ph)]
  ∧ contactName st' = [] ∧ contactPhone st' = []
  ∧ run_writes st (add_events nm ph (Some uuid))
    = [SaveJson STORAGE_CONTACTS
         (contacts st ++ [Contact uuid (trim nm) (trim ph)])]
  ∧ recipientsCsv st'
    = match contacts st with
      | [] => trim ph
      | _ :: _ => recipientsCsv st ++ lit "," ++ trim ph
      end.
Proof.
  intros Hacc Hnd Hnew st'.
  pose proof (add_fresh_contacts nm ph uuid st Hacc Hnd Hnew) as Hc.
  fold st' in Hc. split; [done |].
  split; [by unfold st'; rewrite (add_accepted _ _ _ _ Hacc) |].
  split; [by unfold st'; rewrite (add_accepted _ _ _ _ Hacc) |].
  split; [by rewrite (add_writes_accepted _ _ _ _ Hacc), <- Hc |].
  unfold recipientsCsv. rewrite Hc, fmap_app. cbn [fmap list_fmap phone].
  rewrite join_snoc. by destruct (contacts st).
Qed.

Lemma add_fresh_appends_witness :
  let st := add [] (lit "1234567") (Some (lit "a")) empty_store in
  recipientsCsv (add (lit " Bo ") (lit " 765-4321 ") (Some (lit "b")) st)
  = lit "1234567,765-4321".
Proof.
  intros st.
  destruct (add_fresh_appends (lit " Bo ") (lit " 765-4321 ") (lit "b") st)
    as (_ & _ & _ & _ & Hcsv).
  - solve_acceptable.
  - vm_compute. repeat constructor. by intros ?%elem_of_nil.
  - vm_compute. by intros [[=] | ?%elem_of_nil]%elem_of_cons.
  - exact Hcsv.
Defined.

(** X6: an accepted add of a phone string that a contact of a
    duplicate-free store already has leaves the contacts as they are (the
    old id and name stay), yet reports "Contact saved.", empties the two
    inputs and writes the unchanged list to storage. *)
Theorem add_duplicate_keeps_store nm ph uuid st :
  acceptable ph → phones_unique st → trim ph ∈ (phone <$> contacts st) →
  let st' := add nm ph (Some uuid) st in
  contacts st' = contacts st
  ∧ status st' = status_saved
  ∧ contactName st' = [] ∧ contactPhone st' = []
  ∧ run_writes st (add_events nm ph (Some uuid))
    = [SaveJson STORAGE_CONTACTS (contacts st)].
Proof.
  intros Hacc Hnd Hin st'.
  assert (Hc : contacts st' = contacts st).
  { unfold st'. rewrite (add_accepted _ _ _ _ Hacc). cbn [contacts].
    rewrite (keep_fresh_snoc _ _ Hnd). by rewrite decide_True. }
  split; [done |].
  rewrite (add_writes_accepted _ _ _ _ Hacc). fold st'. rewrite Hc.
  unfold st'. by rewrite (add_accepted _ _ _ _ Hacc).
Qed.

Lemma add_duplicate_keeps_store_witness :
  let st := add (lit "Ann") (lit "1234567") (Some (lit "a")) empty_store in
  contacts (add (lit "Bob") (lit " 1234567") (Some (lit "b")) st)
  = [Contact (lit "a") (lit "Ann") (lit "1234567")].
Proof.
  intros st.
  destruct (add_duplicate_keeps_store (lit "Bob") (lit " 1234567") (lit "b") st)
    as (Hc & _).
  - solve_acceptable.
  - vm_compute. repeat constructor. by intros ?%elem_of_nil.
  - vm_compute. left.
  - exact Hc.
Defined.

(** X7: [remove] deletes every contact that has the id and keeps the
    others in their order; removing the same id again changes nothing. *)
Theorem remove_deletes_id rid st :
  (∀ c, c ∈ contacts (remove rid st) ↔ c ∈ contacts st ∧ id c ≠ rid)
  ∧ contacts (remove rid st) `sublist_of` contacts st
  ∧ remove rid (remove rid st) = remove rid st.
Proof.
  assert (Hc : contacts (remove rid st)
               = filter (λ c, id c ≠ rid) (contacts st)) by done.
  rewrite Hc. split; [| split].
  - intros c. rewrite list_elem_of_filter. tauto.
  - apply sublist_filter.
  - unfold remove, step. cbn [handle removeContact calls commit fold_left
      apply_call contacts status userName contactName contactPhone
      lastMessage lastLink].
    f_equal. apply filter_all. by intros c [? _]%list_elem_of_filter.
Qed.

(** X8: removing an id that no contact has leaves the contacts as they
    are, and still sets "Contact removed." and writes the list to storage. *)
Theorem remove_absent_id rid st :
  (∀ c, c ∈ contacts st → id c ≠ rid) →
  contacts (remove rid st) = contacts st
  ∧ status (remove rid st) = status_removed
  ∧ run_writes st [ClickRemove rid] = [SaveJson STORAGE_CONTACTS (contacts st)].
Proof.
  intros Habs.
  assert (Hc : contacts (remove rid st) = contacts st)
    by (apply filter_all; done).
  split; [done |]. split; [done |].
  cbn [run_writes]. rewrite app_nil_r. unfold persistence_writes.
  cbn [handle removeContact calls existsb is_SetContacts orb].
  rewrite bool_decide_eq_true_2 by done. cbn [app]. do 2 f_equal. exact Hc.
Qed.

Lemma remove_absent_id_witness :
  run_writes empty_store [ClickRemove (lit "none")]
  = [SaveJson STORAGE_CONTACTS []].
Proof.
  apply (remove_absent_id (lit "none") empty_store).
  by intros c ?%elem_of_nil.
Defined.

(** X9: removing the contact just added undoes the add: when the store has
    pairwise distinct phones, none equal to the new one, and no contact
    with the new id, the contacts after add and remove are the ones
    before. *)
Theorem remove_undoes_add nm ph uuid st :
  acceptable ph → phones_unique st → trim ph ∉ (phone <$> contacts st) →
  (∀ c, c ∈ contacts st → id c ≠ uuid) →
  contacts (remove uuid (add nm ph (Some uuid) st)) = contacts st.
Proof.
  intros Hacc Hnd Hnew Hid.
  change (contacts (remove uuid (add nm ph (Some uuid) st)))
    with (filter (λ c, id c ≠ uuid) (contacts (add nm ph (Some uuid) st))).
  rewrite (add_fresh_contacts _ _ _ _ Hacc Hnd Hnew), filter_app.
  rewrite (filter_all _ _ Hid), filter_cons_False by (cbn; tauto).
  by rewrite filter_nil, app_nil_r.
Qed.

Lemma remove_undoes_add_witness :
  let st := add (lit "Ann") (lit "1234567") (Some (lit "a")) empty_store in
  contacts (remove (lit "b") (add (lit "Bob") (lit "7654321") (Some (lit "b")) st))
  = contacts st.
Proof.
  intros st. apply (remove_undoes_add (lit "Bob") (lit "7654321") (lit "b") st).
  - solve_acceptable.
  - vm_compute. repeat constructor. by intros ?%elem_of_nil.
  - vm_compute. by intros [[=] | ?%elem_of_nil]%elem_of_cons.
  - intros c Hc. vm_compute in Hc.
    apply elem_of_cons in Hc as [-> | ?%elem_of_nil]; [| done].
    vm_compute. discriminate.
Defined.

End StoreOperations.

(** ** The recipient list *)

Section Recipients.

Lemma comma_split (x y t1 t2 : list N) :
  comma_free x → comma_free y →
  (t1 = [] ∨ ∃ t, t1 = 44 :: t) → (t2 = [] ∨ ∃ t, t2 = 44 :: t) →
  x ++ t1 = y ++ t2 → x = y ∧ t1 = t2.
Proof.
  unfold comma_free. revert y.
  induction x as [| a x IH]; intros [| b y] Hx Hy H1 H2 E; cbn [app] in E.
  - done.
  - destruct H1 as [-> | [t ->]]; [done |]. injection E as <- _.
    exfalso. apply Hy. by left.
  - destruct H2 as [-> | [t ->]]; [done |]. injection E as -> _.
    exfalso. apply Hx. by left.
  - injection E as -> E.
    destruct (IH y) as [-> ->]; try done.
    + intros ?. apply Hx. by right.
    + intros ?. apply Hy. by right.
Qed.

Lemma join_comma_inj (l1 l2 : list (list N)) :
  Forall (λ s, s ≠ [] ∧ comma_free s) l1 →
  Forall (λ s, s ≠ [] ∧ comma_free s) l2 →
  join (lit ",") l1 = join (lit ",") l2 → l1 = l2.
Proof.
  intros H1. revert l2.
  induction H1 as [| x l1 [Hx Hcx] H1 IH]; intros l2 H2 E.
  - destruct H2 as [| y l2 [Hy _] _]; [done |].
    rewrite join_cons in E. cbn [join] in E.
    symmetry in E. apply app_eq_nil in E as [? _]. done.
  - destruct H2 as [| y l2 [Hy Hcy] H2].
    + rewrite join_cons in E. cbn [join] in E.
      apply app_eq_nil in E as [? _]. done.
    + rewrite !join_cons in E.
      apply comma_split in E as [-> E]; try done.
      * f_equal. destruct l1 as [| a l1], l2 as [| b l2]; try done.
        apply IH; [done |]. by apply app_inv_head in E.
      * destruct l1; [by left | right]. by eexists.
      * destruct l2; [by left | right]. by eexists.
Qed.

(** X10: on reachable stores whose phone strings hold no comma the
    recipient list determines the sequence of phones: two such stores with
    the same [recipientsCsv] have the same phones in the same order. *)
Theorem recipientsCsv_injective_without_commas st1 st2 :
  reachable st1 → reachable st2 →
  (∀ c, c ∈ contacts st1 → comma_free (phone c)) →
  (∀ c, c ∈ contacts st2 → comma_free (phone c)) →
  recipientsCsv st1 = recipientsCsv st2 →
  phone <$> contacts st1 = phone <$> contacts st2.
Proof.
  assert (Hok : ∀ st, reachable st →
            (∀ c, c ∈ contacts st → comma_free (phone c)) →
            Forall (λ s, s ≠ [] ∧ comma_free s) (phone <$> contacts st)).
  { intros st [evs ->] Hcf. apply Forall_fmap, Forall_forall. intros c Hc.
    split; [| by apply Hcf].
    assert (H : Forall well_formed_contact (contacts (run empty_store evs)))
      by (apply run_well_formed; constructor).
    destruct (proj1 (Forall_forall _ _) H c Hc) as (_ & _ & Hlen & _).
    intros E. cbn in E. rewrite E in Hlen. cbn in Hlen. lia. }
  intros Hr1 Hr2 Hc1 Hc2 E.
  apply join_comma_inj; [by apply Hok | by apply Hok | exact E].
Qed.

Lemma recipientsCsv_injective_without_commas_witness :
  let st1 := add (lit "Ann") (lit "1234567") (Some (lit "a")) empty_store in
  let st2 := remove (lit "b")
               (add [] (lit "7654321") (Some (lit "b"))
                  (add [] (lit " 1234567 ") (Some (lit "c")) empty_store)) in
  phone <$> contacts st1 = phone <$> contacts st2.
Proof.
  intros st1 st2.
  apply (recipientsCsv_injective_without_commas st1 st2).
  - apply reachable_add, reachable_empty.
  - apply reachable_remove, reachable_add, reachable_add, reachable_empty.
  - intros c Hc. vm_compute in Hc.
    apply elem_of_cons in Hc as [-> | ?%elem_of_nil]; [| done].
    unfold comma_free. vm_compute.
    intros H. repeat (apply elem_of_cons in H as [[=] | H]).
    by apply elem_of_nil in H.
  - intros c Hc. vm_compute in Hc.
    apply elem_of_cons in Hc as [-> | ?%elem_of_nil]; [| done].
    unfold comma_free. vm_compute.
    intros H. repeat (apply elem_of_cons in H as [[=] | H]).
    by apply elem_of_nil in H.
  - reflexivity.
Defined.

End Recipients.

(** ** Storage *)

Section Storage.

Context {A : Type}.
Variable JSON_parse : list N → option A.
Variable JSON_stringify : A → list N.

(** X11: what [saveString] stores under a key, [loadString] reads back
    from that key, the empty string included (the fallback only stands in
    for an absent key); the other keys read as before. *)
Theorem loadString_saveString (ls : gmap (list N) (list N))
    (key key' value fallback : list N) :
  loadString (saveString key value ls) key fallback = value
  ∧ (key' ≠ key →
     loadString (saveString key value ls) key' fallback
     = loadString ls key' fallback)
  ∧ (ls !! key = None → loadString ls key fallback = fallback).
Proof.
  unfold loadString, saveString. split; [| split].
  - by rewrite lookup_insert_eq.
  - intros Hne. by rewrite lookup_insert_ne.
  - by intros ->.
Qed.

(** X12: [loadJson] gives the fallback for an absent key, for the empty
    text (which it does not parse) and for a text on which [JSON.parse]
    throws; and it reads back what [saveJson] stored whenever the text
    written is not empty and [JSON.parse] inverts [JSON.stringify] on it. *)
Theorem loadJson_saveJson (ls : gmap (list N) (list N))
    (key : list N) (value fallback : A) :
  (ls !! key = None → loadJson JSON_parse ls key fallback = fallback)
  ∧ loadJson JSON_parse (saveString key [] ls) key fallback = fallback
  ∧ (∀ raw, ls !! key = Some raw → JSON_parse raw = None →
            loadJson JSON_parse ls key fallback = fallback)
  ∧ (JSON_stringify value ≠ [] →
     JSON_parse (JSON_stringify value) = Some value →
     loadJson JSON_parse (saveJson JSON_stringify key value ls) key fallback
     = value).
Proof.
  unfold loadJson, saveJson, saveString. split; [| split; [| split]].
  - by intros ->.
  - by rewrite lookup_insert_eq.
  - intros raw -> ->. by destruct (truthy raw).
  - intros Hne Hp. rewrite lookup_insert_eq, Hp.
    by destruct (JSON_stringify value).
Qed.

End Storage.

Lemma loadString_saveString_witness :
  loadString (saveString STORAGE_NAME [] ∅) STORAGE_CONTACTS (lit "none")
  = lit "none".
Proof.
  destruct (loadString_saveString ∅ STORAGE_NAME STORAGE_CONTACTS []
              (lit "none")) as (_ & Hother & _).
  rewrite Hother; [reflexivity |]. vm_compute. discriminate.
Defined.

Lemma loadJson_saveJson_witness :
  let parse : list N → option (list contact) :=
    λ raw, if bool_decide (raw = lit "[]") then Some [] else None in
  let stringify : list contact → list N := λ _, lit "[]" in
  loadJson parse (saveJson stringify STORAGE_CONTACTS [] ∅) STORAGE_CONTACTS
           [Contact [] [] []]
  = [].
Proof.
  intros parse stringify.
  apply (loadJson_saveJson parse stringify ∅ STORAGE_CONTACTS []
           [Contact [] [] []]).
  - vm_compute. discriminate.
  - reflexivity.
Defined.

Section PersistenceSync.

Variable JSON_stringify : list contact → list N.

Lemma storage_keys_differ : STORAGE_NAME ≠ STORAGE_CONTACTS.
Proof. vm_compute. discriminate. Qed.

Lemma in_sync_step (ls : gmap (list N) (list N)) st ev :
  in_sync JSON_stringify ls st →
  in_sync JSON_stringify
    (apply_writes JSON_stringify ls
       (persistence_writes st (calls (handle ev st))))
    (step st ev).
Proof.
  intros [Hn Hc]. unfold step.
  set (cs := calls (handle ev st)).
  assert (Hcs : existsb is_SetContacts cs = false →
                contacts (commit st cs) = contacts st).
  { unfold cs. destruct ev as [v | v | v | u | rid]; cbn [handle]; try done.
    rewrite addContact_cases.
    destruct (spec_validate (contactPhone st)); [done |]. by destruct u. }
  unfold persistence_writes, apply_writes, in_sync.
  pose proof storage_keys_differ as Hk.
  case_bool_decide as Hu; destruct (existsb is_SetContacts cs) eqn:Hs;
    cbn [app fold_left apply_write]; unfold saveString, saveJson.
  - rewrite lookup_insert_ne, lookup_insert_eq by done.
    by rewrite Hu.
  - rewrite Hu, (Hcs eq_refl). done.
  - rewrite lookup_insert_ne, lookup_insert_eq, lookup_insert_eq by done.
    done.
  - rewrite lookup_insert_eq, lookup_insert_ne, (Hcs eq_refl) by done.
    done.
Qed.

Lemma in_sync_run (ls : gmap (list N) (list N)) st evs :
  in_sync JSON_stringify ls st →
  in_sync JSON_stringify
    (apply_writes JSON_stringify ls (run_writes st evs)) (run st evs).
Proof.
  revert ls st. induction evs as [| ev evs IH]; intros ls st Hs; [done |].
  cbn [run_writes run fold_left]. unfold apply_writes.
  rewrite fold_left_app. apply IH. by apply in_sync_step.
Qed.

(** X13: the storage follows the state.  After the two writes of the
    first render and the writes fired by any sequence of events, the
    storage holds under [STORAGE_NAME] the current user name and under
    [STORAGE_CONTACTS] the text of the current contact list, whatever it
    held before. *)
Theorem storage_follows_state (ls : gmap (list N) (list N)) st evs :
  in_sync JSON_stringify
    (apply_writes JSON_stringify ls (mount_writes st ++ run_writes st evs))
    (run st evs).
Proof.
  unfold apply_writes. rewrite fold_left_app. apply in_sync_run.
  unfold mount_writes, in_sync. cbn [fold_left apply_write].
  unfold saveString, saveJson. pose proof storage_keys_differ.
  by rewrite lookup_insert_ne, !lookup_insert_eq.
Qed.

End PersistenceSync.



(** ** More on the location probe *)

Section ProbeOrder.

Lemma first_callback_at f t1 cb :
  f t1 = Some cb → (∀ t', (t' < t1)%nat → f t' = None) →
  first_callback f t1 = Some cb.
Proof.
  intros Hcb Hbefore. destruct t1 as [| t1]; [done |].
  cbn [first_callback].
  rewrite (proj2 (first_callback_None f t1)); [done |].
  intros t' Ht'. apply Hbefore. lia.
Qed.

(** X15: the promise of [getLocationOnce] takes the first callback the
    sensor invokes: it is pending before that time, and from that time on
    it is fulfilled with the position or rejected with the error of that
    callback, whatever the sensor invokes later. *)
Theorem getLocationOnce_first_callback device t1 cb t :
  device location_options t1 = Some cb →
  (∀ t', (t' < t1)%nat → device location_options t' = None) →
  ((t < t1)%nat → getLocationOnce (Navigator (Some device)) t = Pending)
  ∧ ((t1 ≤ t)%nat → getLocationOnce (Navigator (Some device)) t = settle cb).
Proof.
  intros Hcb Hbefore. unfold getLocationOnce. cbn [geolocation]. split.
  - intros Hlt. rewrite (proj2 (first_callback_None _ t)); [done |].
    intros t' Ht'. apply Hbefore. lia.
  - intros Hle.
    rewrite (first_callback_stable _ _ _ _ Hle
               (first_callback_at _ _ _ Hcb Hbefore)).
    by destruct cb.
Qed.

Lemma getLocationOnce_first_callback_witness :
  let pos := Position (Coordinates (Double 37 0) (Double (-122) 0)) in
  let device : sensor :=
    λ _ t, if (t =? 3)%nat then Some (Success pos)
           else if (t =? 5)%nat then Some (Failure (PositionError 3))
           else None in
  getLocationOnce (Navigator (Some device)) 2 = Pending
  ∧ getLocationOnce (Navigator (Some device)) 9 = Fulfilled pos.
Proof.
  intros pos device.
  assert (Hbefore : ∀ t', (t' < 3)%nat → device location_options t' = None).
  { intros t' Ht'. unfold device.
    destruct t' as [| [| [| t']]]; [done | done | done | lia]. }
  split.
  - apply (getLocationOnce_first_callback device 3 (Success pos) 2);
      [reflexivity | exact Hbefore | lia].
  - apply (getLocationOnce_first_callback device 3 (Success pos) 9);
      [reflexivity | exact Hbefore | lia].
Defined.

End ProbeOrder.

(** ** More on [sendSOS] and [copyMessage] *)

Section SendFlow.

Variable numberToString : double → list N.
Variable encodeURIComponent : list N → option (list N).

Implicit Types (st : state) (nav : navigator) (time : list N) (t : nat).

Lemma contacts_test st :
  contacts st ≠ [] → negb (0 <? N.of_nat (length (contacts st))) = false.
Proof.
  intros Hc. destruct (contacts st); [done |].
  apply negb_false_iff, N.ltb_lt. cbn [length]. lia.
Qed.

(** The run of [sendSOS] once the probe has settled. *)
Lemma sendSOS_settled nav time t st :
  contacts st ≠ [] → getLocationOnce nav t ≠ Pending →
  let link := link_of numberToString (getLocationOnce nav t) in
  let message := message_text (userName st) link time in
  let composed :=
    SetStatus status_locating
    :: getLocationOnce_calls nav ++ [SetLastLink link; SetLastMessage message] in
  sendSOS numberToString encodeURIComponent nav time t st
  = match encodeURIComponent (recipientsCsv st), encodeURIComponent message with
    | Some to, Some body =>
        Outcome (composed
                 ++ [SetStatus status_opening;
                     SetLocationHref ((lit "sms:" ++ to) ++ (lit "?&body=" ++ body))])
                Returned
    | _, _ => Outcome composed Threw
    end.
Proof.
  intros Hc Hp link message composed. unfold sendSOS.
  rewrite (contacts_test _ Hc). fold link. fold message.
  destruct (getLocationOnce nav t); [done | |];
    by destruct (encodeURIComponent (recipientsCsv st)).
Qed.

Lemma commit_app st cs1 cs2 :
  commit st (cs1 ++ cs2) = commit (commit st cs1) cs2.
Proof. apply fold_left_app. Qed.

Lemma getLocationOnce_calls_commit nav st :
  commit st (getLocationOnce_calls nav) = st.
Proof. unfold getLocationOnce_calls. by destruct (geolocation nav). Qed.

Lemma getLocationOnce_calls_no_href nav :
  filter (λ c, is_SetLocationHref c) (getLocationOnce_calls nav) = [].
Proof. unfold getLocationOnce_calls. by destruct (geolocation nav). Qed.

(** X16: with at least one contact, once the probe has settled either way
    (position or failure) and both texts encode, [sendSOS] returns after
    storing the link and the message, setting the status "Opening SMS app
    (tap Send)." and, as its last step, assigning [location.href] once,
    with "sms:", the encoded recipients, "?&body=" and the encoded
    message.  A failed probe does not stop the send. *)
Theorem sendSOS_dispatches nav time t st to body :
  contacts st ≠ [] → getLocationOnce nav t ≠ Pending →
  let link := link_of numberToString (getLocationOnce nav t) in
  let message := message_text (userName st) link time in
  let out := sendSOS numberToString encodeURIComponent nav time t st in
  let url := lit "sms:" ++ to ++ lit "?&body=" ++ body in
  encodeURIComponent (recipientsCsv st) = Some to →
  encodeURIComponent message = Some body →
  how out = Returned
  ∧ filter (λ c, is_SetLocationHref c) (calls out) = [SetLocationHref url]
  ∧ last (calls out) = Some (SetLocationHref url)
  ∧ status (commit st (calls out)) = status_opening
  ∧ lastMessage (commit st (calls out)) = message
  ∧ lastLink (commit st (calls out)) = link.
Proof.
  intros Hc Hp link message out url Hto Hbody. unfold out.
  rewrite (sendSOS_settled _ _ _ _ Hc Hp). fold link. fold message.
  rewrite Hto, Hbody. cbn [how calls].
  replace ((lit "sms:" ++ to) ++ (lit "?&body=" ++ body)) with url
    by (unfold url; by rewrite <- app_assoc).
  split; [done |]. split; [| split].
  - change (SetStatus status_locating :: ?l) with ([SetStatus status_locating] ++ l).
    rewrite !filter_app, getLocationOnce_calls_no_href. done.
  - by rewrite last_app.
  - change (SetStatus status_locating :: ?l) with ([SetStatus status_locating] ++ l).
    rewrite !commit_app, getLocationOnce_calls_commit. done.
Qed.

(** X17: when [encodeURIComponent] throws on the recipients or on the
    message (a lone surrogate in a phone or in the user name), [sendSOS]
    has stored the link and the message already, but it assigns no
    [location.href] and leaves the status at "Getting location...". *)
Theorem sendSOS_encoding_failure nav time t st :
  contacts st ≠ [] → getLocationOnce nav t ≠ Pending →
  let link := link_of numberToString (getLocationOnce nav t) in
  let message := message_text (userName st) link time in
  let out := sendSOS numberToString encodeURIComponent nav time t st in
  encodeURIComponent (recipientsCsv st) = None
  ∨ encodeURIComponent message = None →
  how out = Threw
  ∧ filter (λ c, is_SetLocationHref c) (calls out) = []
  ∧ status (commit st (calls out)) = status_locating
  ∧ lastMessage (commit st (calls out)) = message
  ∧ lastLink (commit st (calls out)) = link.
Proof.
  intros Hc Hp link message out Henc. unfold out.
  rewrite (sendSOS_settled _ _ _ _ Hc Hp). fold link. fold message.
  set (composed := SetStatus status_locating
                   :: getLocationOnce_calls nav
                      ++ [SetLastLink link; SetLastMessage message]).
  assert (Hout : match encodeURIComponent (recipientsCsv st),
                       encodeURIComponent message with
                 | Some to, Some body =>
                     Outcome (composed
                              ++ [SetStatus status_opening;
                                  SetLocationHref
                                    ((lit "sms:" ++ to) ++ (lit "?&body=" ++ body))])
                             Returned
                 | _, _ => Outcome composed Threw
                 end = Outcome composed Threw).
  { destruct Henc as [-> | ->]; [done |].
    by destruct (encodeURIComponent (recipientsCsv st)). }
  rewrite Hout. cbn [how calls]. unfold composed.
  change (SetStatus status_locating :: ?l) with ([SetStatus status_locating] ++ l).
  rewrite !filter_app, getLocationOnce_calls_no_href.
  rewrite !commit_app, getLocationOnce_calls_commit. done.
Qed.

(** X18: the location lines of the message follow the probe: with a
    position the message has "My last known location is below:" and the
    link on the next line (whatever digits [toFixed] gives), without one
    it has "My location is unavailable right now.". *)
Theorem message_location_lines userName settled time :
  let link := link_of numberToString settled in
  let nameLine :=
    if truthy userName then lit "My name is " ++ userName ++ lit "."
    else lit "This is an SOS message." in
  message_text userName link time
  = match settled with
    | Fulfilled _ =>
        nameLine ++ nl ++ line_detained ++ nl ++ line_check ++ nl
        ++ line_location_below ++ nl ++ link ++ nl ++ lit "Time: " ++ time
    | Pending | Rejected _ =>
        nameLine ++ nl ++ line_detained ++ nl ++ line_check ++ nl
        ++ line_location_unavailable ++ nl ++ lit "Time: " ++ time
    end.
Proof.
  intros link nameLine.
  assert (Ht : truthy link
               = match settled with Fulfilled _ => true | _ => false end)
    by (unfold link; by destruct settled).
  unfold message_text. fold nameLine. rewrite Ht.
  generalize nameLine line_detained line_check line_location_below
    line_location_unavailable nl (lit "Time: " ++ time).
  intros l1 l2 l3 l4a l4b sep timeLine.
  destruct settled; by rewrite <- ?app_assoc.
Qed.

(** X19: [sendSOS] touches session state only.  Whatever the contacts,
    the sensor, the time of observation and the encoder do, it leaves the
    contacts, the user name and the two inputs as they are and fires no
    persistence write (the message and the link are never stored). *)
Theorem sendSOS_session_only nav time t st :
  let out := sendSOS numberToString encodeURIComponent nav time t st in
  contacts (commit st (calls out)) = contacts st
  ∧ userName (commit st (calls out)) = userName st
  ∧ contactName (commit st (calls out)) = contactName st
  ∧ contactPhone (commit st (calls out)) = contactPhone st
  ∧ persistence_writes st (calls out) = [].
Proof.
  cbv zeta.
  assert (Hkeep : contacts (commit st (calls (sendSOS numberToString
                    encodeURIComponent nav time t st))) = contacts st
            ∧ userName (commit st (calls (sendSOS numberToString
                    encodeURIComponent nav time t st))) = userName st
            ∧ contactName (commit st (calls (sendSOS numberToString
                    encodeURIComponent nav time t st))) = contactName st
            ∧ contactPhone (commit st (calls (sendSOS numberToString
                    encodeURIComponent nav time t st))) = contactPhone st
            ∧ existsb is_SetContacts (calls (sendSOS numberToString
                    encodeURIComponent nav time t st)) = false).
  { unfold sendSOS, getLocationOnce_calls.
    destruct (negb _); [done |].
    destruct (getLocationOnce nav t); destruct (geolocation nav);
      try done;
      destruct (encodeURIComponent (recipientsCsv st)); try done;
      by destruct (encodeURIComponent _). }
  destruct Hkeep as (Hc & Hu & Hn & Hp & He).
  repeat (split; [done |]). by apply persistence_writes_none.
Qed.

(** X20: a send asks the sensor at most once.  At every time of
    observation the position requests of [sendSOS] are: none without
    contacts or without a geolocation capability, and otherwise the one
    request with high accuracy, a timeout of 10000 ms and no cached
    position. *)
Theorem sendSOS_requests_position_once nav time t st :
  filter (λ c, is_GetCurrentPosition c)
         (calls (sendSOS numberToString encodeURIComponent nav time t st))
  = match contacts st, geolocation nav with
    | _ :: _, Some _ => [GetCurrentPosition (PositionOptions true 10000 0)]
    | _, _ => []
    end.
Proof.
  unfold sendSOS, getLocationOnce_calls.
  pose proof (contacts_test st) as Ht.
  destruct (contacts st) as [| c cs]; [done |].
  rewrite Ht by done.
  destruct (getLocationOnce nav t); destruct (geolocation nav);
    try done;
    destruct (encodeURIComponent (recipientsCsv st)); try done;
    by destruct (encodeURIComponent _).
Qed.

(** X21: a send only moves forward.  What [sendSOS] has done by a time is
    a prefix of what it has done by any later time, and once it is no
    longer waiting for the probe its run stays the same. *)
Theorem sendSOS_monotone nav time t t' st :
  (t ≤ t')%nat →
  let out := sendSOS numberToString encodeURIComponent nav time t st in
  let out' := sendSOS numberToString encodeURIComponent nav time t' st in
  calls out `prefix_of` calls out' ∧ (how out ≠ Awaiting → out' = out).
Proof.
  intros Hle. cbv zeta. unfold sendSOS.
  destruct (negb _); [done |].
  assert (Hst : getLocationOnce nav t ≠ Pending →
                getLocationOnce nav t' = getLocationOnce nav t).
  { unfold getLocationOnce. destruct (geolocation nav) as [device |]; [| done].
    destruct (first_callback (device location_options) t) as [c |] eqn:E;
      [| done].
    intros _. by rewrite (first_callback_stable _ _ _ _ Hle E). }
  destruct (getLocationOnce nav t) as [| pos | reason] eqn:Ep.
  - split; [| done].
    destruct (getLocationOnce nav t');
      [done | |];
      (destruct (encodeURIComponent (recipientsCsv st));
       [destruct (encodeURIComponent _) |]);
      cbn [calls];
      rewrite ?app_comm_cons, <- ?app_assoc; by apply prefix_app_r.
  - rewrite Hst by done. done.
  - rewrite Hst by done. done.
Qed.

End SendFlow.

Lemma sendSOS_monotone_witness :
  let device : sensor :=
    λ _ t, if (t =? 3)%nat then Some (Failure (PositionError 1)) else None in
  let st := add [] (lit "1234567") (Some (lit "a")) empty_store in
  calls (sendSOS (λ _, []) Some (Navigator (Some device)) (lit "T") 2 st)
  `prefix_of`
  calls (sendSOS (λ _, []) Some (Navigator (Some device)) (lit "T") 4 st).
Proof.
  intros device st.
  apply (sendSOS_monotone (λ _, []) Some (Navigator (Some device)) (lit "T")
           2 4 st).
  lia.
Defined.

Lemma sendSOS_dispatches_witness :
  let st := add [] (lit "1234567") (Some (lit "a")) empty_store in
  let out := sendSOS (λ _, []) Some (Navigator None) (lit "T") 0 st in
  last (calls out)
  = Some (SetLocationHref
            (lit "sms:" ++ lit "1234567" ++ lit "?&body="
             ++ message_text [] [] (lit "T"))).
Proof.
  intros st out.
  destruct (sendSOS_dispatches (λ _, []) Some (Navigator None) (lit "T") 0 st
              (lit "1234567") (message_text [] [] (lit "T")))
    as (_ & _ & Hlast & _);
    [discriminate | discriminate | reflexivity | reflexivity |].
  exact Hlast.
Defined.

Lemma sendSOS_encoding_failure_witness :
  let st := add [] (lit "1234567") (Some (lit "a")) empty_store in
  let out := sendSOS (λ _, []) (λ _, None) (Navigator None) (lit "T") 0 st in
  how out = Threw
  ∧ lastMessage (commit st (calls out)) = message_text [] [] (lit "T").
Proof.
  intros st out.
  destruct (sendSOS_encoding_failure (λ _, []) (λ _, None) (Navigator None)
              (lit "T") 0 st)
    as (Hhow & _ & _ & Hmsg & _).
  - discriminate.
  - discriminate.
  - by left.
  - split; [exact Hhow | exact Hmsg].
Defined.

Section CopyMessage.

Variable numberToString : double → list N.
Variable encodeURIComponent : list N → option (list N).

Lemma message_text_truthy userName link time :
  truthy (message_text userName link time) = true.
Proof. unfold message_text. by destruct (truthy userName). Qed.

Lemma sendSOS_stores_message nav time t st :
  contacts st ≠ [] → getLocationOnce nav t ≠ Pending →
  lastMessage
    (commit st (calls (sendSOS numberToString encodeURIComponent nav time t st)))
  = message_text (userName st)
      (link_of numberToString (getLocationOnce nav t)) time.
Proof.
  intros Hc Hp. rewrite (sendSOS_settled _ _ _ _ _ _ Hc Hp). cbv zeta.
  destruct (encodeURIComponent (recipientsCsv st));
    [destruct (encodeURIComponent _) |];
    cbn [calls];
    change (SetStatus status_locating :: ?l)
      with ([SetStatus status_locating] ++ l);
    rewrite !commit_app, getLocationOnce_calls_commit; done.
Qed.

(** X22: after a send that got past the location step (also one whose
    encoding then failed), [copyMessage] hands exactly the composed message
    to the clipboard, and reports "Message copied." when the write
    succeeds. *)
Theorem copyMessage_after_send nav time t st w :
  contacts st ≠ [] → getLocationOnce nav t ≠ Pending →
  let st' :=
    commit st (calls (sendSOS numberToString encodeURIComponent nav time t st)) in
  let message :=
    message_text (userName st)
      (link_of numberToString (getLocationOnce nav t)) time in
  clipboard_writes (copyMessage (Some w) st') = [message]
  ∧ copy_outcome (copyMessage (Some WriteResolved) st')
    = Outcome [SetStatus status_copied] Returned.
Proof.
  intros Hc Hp st' message. unfold copyMessage.
  assert (Hm : lastMessage st' = message)
    by (apply sendSOS_stores_message; done).
  rewrite Hm. unfold message. rewrite message_text_truthy. cbn [negb].
  split; [by destruct w | done].
Qed.

End CopyMessage.

Lemma copyMessage_after_send_witness :
  let st := add [] (lit "1234567") (Some (lit "a")) empty_store in
  let st' := commit st (calls (sendSOS (λ _, []) (λ _, None) (Navigator None)
                                 (lit "T") 0 st)) in
  clipboard_writes (copyMessage (Some WritePending) st')
  = [message_text [] [] (lit "T")].
Proof.
  intros st st'.
  apply (copyMessage_after_send (λ _, []) (λ _, None) (Navigator None)
           (lit "T") 0 st WritePending);
    discriminate.
Defined.

Section BeforeSend.

Lemma step_lastMessage st ev : lastMessage (step st ev) = lastMessage st.
Proof.
  unfold step. destruct ev as [v | v | v | u | rid]; cbn [handle]; try done.
  rewrite addContact_cases.
  destruct (spec_validate (contactPhone st)); [done |]. by destruct u.
Qed.

Lemma run_lastMessage st evs : lastMessage (run st evs) = lastMessage st.
Proof.
  induction evs as [| ev evs IH] using rev_ind; [done |].
  by rewrite run_snoc, step_lastMessage.
Qed.

(** X23: as long as no send has composed a message, whatever was loaded
    from storage and whatever was typed, added and removed since,
    [copyMessage] hands nothing to the clipboard and sets the status "Press
    SOS first.". *)
Theorem copyMessage_before_send stored_name stored_contacts evs clipboard :
  copyMessage clipboard (run (mount stored_name stored_contacts) evs)
  = CopyRun [] (Outcome [SetStatus status_press_sos] Returned).
Proof.
  unfold copyMessage. by rewrite run_lastMessage.
Qed.

End BeforeSend.

(** ** Contact ids *)

Section ContactIds.

Implicit Types (st : state) (l : list contact).

Lemma remove_one l c :
  NoDup (id <$> l) → c ∈ l →
  (length (filter (λ x, id x ≠ id c) l) + 1 = length l)%nat.
Proof.
  induction l as [| a l IH]; [by intros _ ?%elem_of_nil |].
  rewrite fmap_cons. intros [Ha Hnd]%NoDup_cons Hc.
  destruct (decide (id a = id c)) as [E | E].
  - rewrite filter_cons_False by tauto.
    rewrite filter_all; [cbn [length]; lia |].
    intros x Hx Hxc. apply Ha. rewrite E, <- Hxc.
    by apply list_elem_of_fmap_2.
  - rewrite filter_cons_True by done. cbn [length].
    apply elem_of_cons in Hc as [-> | Hc]; [done |].
    specialize (IH Hnd Hc). lia.
Qed.

(** X24: as long as every add receives an id that no contact of the store
    has, the ids in the store stay pairwise distinct, through adds and
    removes alike; and then pressing "Remove" on a contact deletes that one
    contact and no other. *)
Theorem ids_stay_unique st :
  NoDup (id <$> contacts st) →
  (∀ nm ph uuid,
     uuid ∉ (id <$> contacts st) →
     NoDup (id <$> contacts (add nm ph (Some uuid) st)))
  ∧ (∀ rid, NoDup (id <$> contacts (remove rid st)))
  ∧ (∀ c, c ∈ contacts st →
          (length (contacts (remove (id c) st)) + 1 = length (contacts st))%nat
          ∧ c ∉ contacts (remove (id c) st)).
Proof.
  intros Hnd. split; [| split].
  - intros nm ph uuid Hnew.
    destruct (spec_validate ph) as [e |] eqn:He.
    + by rewrite (add_rejected _ _ _ _ _ He).
    + apply spec_validate_None in He. rewrite (add_accepted _ _ _ _ He).
      cbn [contacts].
      eapply sublist_NoDup; [| apply fmap_sublist, keep_fresh_sublist].
      rewrite fmap_app. apply NoDup_app. split; [done |].
      split; [| by apply NoDup_singleton].
      intros x Hx ->%list_elem_of_singleton. done.
  - intros rid. apply (sublist_NoDup _ _ Hnd), fmap_sublist, sublist_filter.
  - intros c Hc. split; [by apply remove_one |].
    change (contacts (remove (id c) st))
      with (filter (λ x, id x ≠ id c) (contacts st)).
    by intros [? _]%list_elem_of_filter.
Qed.

Lemma ids_stay_unique_witness :
  let st := add [] (lit "7654321") (Some (lit "b"))
              (add [] (lit "1234567") (Some (lit "a")) empty_store) in
  contacts (remove (lit "a") st) = [Contact (lit "b") [] (lit "7654321")]
  ∧ (length (contacts (remove (lit "a") st)) + 1 = length (contacts st))%nat.
Proof.
  intros st. split; [reflexivity |].
  assert (Hnd : NoDup (id <$> contacts st)).
  { vm_compute. repeat constructor.
    - by intros [[=] | ?%elem_of_nil]%elem_of_cons.
    - by intros ?%elem_of_nil. }
  destruct (ids_stay_unique st Hnd) as (_ & _ & Hrem).
  apply (Hrem (Contact (lit "a") [] (lit "1234567"))).
  vm_compute. left.
Defined.

End ContactIds.
